(** * The client's [State] controller: an in-memory topic -> sequence map
      with restore gating and write-through persistence.

    Source: [packages/client/src/controllers/state.ts].

    Conventions of the model.
    - A sequence is a JS object; it is modelled by the finite map of its own
      fields.  Object spread [{...a, ...b}] is the union that prefers [b].
    - [this.sequences] is a JS [Map]: an insertion-ordered table with at most
      one entry per key.  Its iteration order is what [this.values] (and so
      the persisted array) shows, hence an association list.
    - Every [async] method is a state transformer that yields how its promise
      settles: it resolves, it rejects, or it stays parked at the restore
      gate.  A method is followed from its call to the settling of its
      promise with no other call interleaved between its [await]s; what a
      parked call does once [enabled] releases it is not followed.
    - The event emitter and the storage adapter are observed through an
      append-only trace of actions.  A [setItem] promise is settled by the
      adapter at a later step of its own.
    - Logger output is not part of the model. *)

From Stdlib Require Import ZArith List String Ascii Bool Lia.
From stdpp Require Import gmap strings list fin_maps.
Import ListNotations.

Local Open Scope string_scope.
Local Open Scope list_scope.

(** ** JS values and objects *)

(** What a field of a record can hold.  Nested objects and arrays are
    references: the store never looks inside them. *)
Inductive value : Type :=
| VUndefined
| VNull
| VBool (b : bool)
| VNum (n : Z)
| VStr (s : string)
| VRef (l : positive).

#[global] Instance value_eq_dec : EqDecision value.
Proof. solve_decision. Defined.

(** [Sequence] and [Partial<Sequence>]: objects, as maps from field names. *)
Abbreviation Sequence := (gmap string value).
Abbreviation Patch := (gmap string value).

(** [{ ...sequence, ...update }] *)
Definition spread (sequence : Sequence) (update : Patch) : Sequence :=
  update ∪ sequence.

(** [(sequence as any).topic]: reading a missing property gives [undefined]. *)
Definition topic_of (sequence : Sequence) : value :=
  default VUndefined (sequence !! "topic").

(** [Reason] of [@walletconnect/types]. *)
Record Reason : Type := { code : Z; message : string }.

(** ** The JS [Map] *)

Module JsMap.
Section Ops.
Context {K V : Type} `{EqDecision K}.

Fixpoint get (k : K) (m : list (K * V)) : option V :=
  match m with
  | [] => None
  | (k', v) :: m' => if decide (k = k') then Some v else get k m'
  end.

Definition has (k : K) (m : list (K * V)) : bool :=
  match get k m with Some _ => true | None => false end.

(** [Map.prototype.set]: an existing key keeps its place, a new key goes
    last. *)
Fixpoint set (k : K) (v : V) (m : list (K * V)) : list (K * V) :=
  match m with
  | [] => [(k, v)]
  | (k', v') :: m' =>
      if decide (k = k') then (k, v) :: m' else (k', v') :: set k v m'
  end.

(** [Map.prototype.delete]; a [Map] holds a key once, so this removes the
    one entry of [k]. *)
Fixpoint delete (k : K) (m : list (K * V)) : list (K * V) :=
  match m with
  | [] => []
  | (k', v') :: m' =>
      if decide (k = k') then delete k m' else (k', v') :: delete k m'
  end.

Definition size (m : list (K * V)) : nat := List.length m.
Definition keys (m : list (K * V)) : list K := List.map fst m.
Definition values (m : list (K * V)) : list V := List.map snd m.
End Ops.
End JsMap.

(** ** Strings and arrays of the key derivation *)

(** [String.prototype.split] with a one-character separator. *)
Fixpoint split (sep : ascii) (s : string) : list string :=
  match s with
  | EmptyString => [EmptyString]
  | String c s' =>
      if Ascii.eqb c sep then EmptyString :: split sep s'
      else match split sep s' with
           | [] => [String c EmptyString]
           | w :: ws => String c w :: ws
           end
  end.

(** Relative index of [Array.prototype.slice]: a negative index counts from
    the end, and the result is clamped to [0, len]. *)
Definition slice_index (len i : Z) : Z :=
  if (i <? 0)%Z then Z.max (len + i) 0 else Z.min i len.

(** [Array.prototype.slice(start, end)] *)
Definition slice {A : Type} (start stop : Z) (l : list A) : list A :=
  let len := Z.of_nat (List.length l) in
  let k := slice_index len start in
  let final := slice_index len stop in
  firstn (Z.to_nat (Z.max (final - k) 0)) (skipn (Z.to_nat k) l).

(** [Array.prototype.join] *)
Definition join (sep : string) (l : list string) : string :=
  String.concat sep l.

(** ** Events, errors and the observable trace *)

(** The payloads of [STATE_EVENTS]. *)
Inductive StateEvent : Type :=
| Created (topic : string) (sequence : Sequence)
| Updated (topic : string) (sequence : Sequence) (update : Patch)
| Deleted (topic : string) (sequence : Sequence) (reason : Reason)
| Sync
| Enabled.

(** What a promise of the store can be rejected with.  The two [ERROR]
    entries of [@walletconnect/utils] keep the parameters they are formatted
    from. *)
Inductive Error : Type :=
| NoMatchingTopic (context : string) (topic : string)
| RestoreWillOverride (context : string)
| TypeError
| StorageError (reason : string).

Inductive action : Type :=
| Emit (e : StateEvent)
| GetItem (key : string)
| SetItem (key : string) (item : list Sequence)
| Settled (key : string) (item : list Sequence) (ok : bool).

(** Reading a trace. *)
Definition is_enabled_event (a : action) : bool :=
  match a with Emit Enabled => true | _ => false end.

Definition is_created_event (a : action) : bool :=
  match a with Emit (Created _ _) => true | _ => false end.

Definition count_actions (p : action -> bool) (tr : list action) : nat :=
  List.length (List.filter p tr).

(** The events whose listeners persist. *)
Definition is_publish (e : StateEvent) : bool :=
  match e with
  | Created _ _ | Updated _ _ _ | Deleted _ _ _ => true
  | Sync | Enabled => false
  end.

Definition is_publish_event (a : action) : bool :=
  match a with Emit e => is_publish e | _ => false end.

Definition is_setItem (a : action) : bool :=
  match a with SetItem _ _ => true | _ => false end.

(** The storage key an action goes to, if it is one of the adapter. *)
Definition uses_key (key : string) (a : action) : Prop :=
  match a with
  | GetItem k | SetItem k _ | Settled k _ _ => k = key
  | Emit _ => True
  end.

(** The last [n] elements of an array. *)
Definition last_n {A : Type} (n : nat) (l : list A) : list A :=
  skipn (List.length l - n) l.

(** Every [sync] in a trace comes right after the adapter resolved a write,
    and that write was handed to the adapter earlier in the trace. *)
Definition sync_follows_write (tr : list action) : Prop :=
  forall pre post,
    tr = pre ++ Emit Sync :: post ->
    exists pre' key item,
      pre = pre' ++ [Settled key item true] /\ In (SetItem key item) pre'.

(** ** The store *)

(** The fields of [IClient] the store reads. *)
Record IClient : Type := {
  protocol : string;
  version : string;
  context : string
}.

(** An entry of a persisted array: an object, or [null]/[undefined] when the
    snapshot is malformed. *)
Abbreviation entry := (option Sequence).

Record State : Type := {
  client : IClient;
  (** the context of [this.logger], what [getLoggerContext] returns *)
  logger : string;
  sequences : list (value * Sequence);
  cached : list entry;
  (** calls parked in [isEnabled], each a [once] listener of [enabled] *)
  parked : nat;
  (** [setItem] promises the adapter has not settled yet, oldest first *)
  writes : list (string * list Sequence);
  trace : list action
}.

Definition with_sequences (m : list (value * Sequence)) (st : State) : State :=
  {| client := client st; logger := logger st; sequences := m;
     cached := cached st; parked := parked st; writes := writes st;
     trace := trace st |}.

Definition with_cached (c : list entry) (st : State) : State :=
  {| client := client st; logger := logger st; sequences := sequences st;
     cached := c; parked := parked st; writes := writes st;
     trace := trace st |}.

Definition with_parked (n : nat) (st : State) : State :=
  {| client := client st; logger := logger st; sequences := sequences st;
     cached := cached st; parked := n; writes := writes st;
     trace := trace st |}.

Definition with_writes (w : list (string * list Sequence)) (st : State) : State :=
  {| client := client st; logger := logger st; sequences := sequences st;
     cached := cached st; parked := parked st; writes := w;
     trace := trace st |}.

Definition record (a : action) (st : State) : State :=
  {| client := client st; logger := logger st; sequences := sequences st;
     cached := cached st; parked := parked st; writes := writes st;
     trace := trace st ++ [a] |}.

(** How a promise settles. *)
Inductive outcome (A : Type) : Type :=
| Returned (a : A)
| Threw (e : Error)
| Parked.
Arguments Returned {A} a.
Arguments Threw {A} e.
Arguments Parked {A}.

Definition M (A : Type) : Type := State -> outcome A * State.

Definition ret {A : Type} (a : A) : M A := fun st => (Returned a, st).
Definition throw {A : Type} (e : Error) : M A := fun st => (Threw e, st).
Definition modify (f : State -> State) : M unit := fun st => (Returned tt, f st).

Definition bind {A B : Type} (m : M A) (k : A -> M B) : M B :=
  fun st =>
    match m st with
    | (Returned a, st') => k a st'
    | (Threw e, st') => (Threw e, st')
    | (Parked, st') => (Parked, st')
    end.

Notation "x <- m ;; k" := (bind m (fun x => k))
  (at level 100, m at next level, right associativity).
Notation "m ;;; k" := (bind m (fun _ => k))
  (at level 100, right associativity).

(** *** Getters *)

Definition length (st : State) : nat := JsMap.size (sequences st).
Definition topics (st : State) : list value := JsMap.keys (sequences st).
Definition values (st : State) : list Sequence := JsMap.values (sequences st).

(** *** Key derivation *)

Definition getNestedContext (len : Z) (st : State) : list string :=
  let nestedContext := split "/"%char (logger st) in
  let n := Z.of_nat (List.length nestedContext) in
  slice (n - len) n nestedContext.

Definition getStateContext (st : State) : string :=
  join " " (getNestedContext 2 st).

Definition getStorageKey (st : State) : string :=
  let storageKeyPrefix :=
    protocol (client st) +:+ "@" +:+ version (client st) +:+ ":" +:+ context (client st) in
  let sequenceContext := join ":" (getNestedContext 2 st) in
  storageKeyPrefix +:+ "//" +:+ sequenceContext.

(** *** The gate *)

Definition isEnabled : M unit :=
  fun st =>
    match cached st with
    | [] => (Returned tt, st)
    | _ :: _ => (Parked, with_parked (S (parked st)) st)
    end.

(** *** Persistence and events *)

(** [persist] up to its [await]: the arguments of [setItem] are evaluated and
    the write is handed to the adapter. *)
Definition persist (st : State) : State :=
  let key := getStorageKey st in
  let item := values st in
  with_writes (writes st ++ [(key, item)]) (record (SetItem key item) st).

(** The listeners that [registerEventListeners] puts on [created],
    [updated] and [deleted]: each calls [persist] and does not await it. *)
Definition registerEventListeners (e : StateEvent) (st : State) : State :=
  match e with
  | Created _ _ | Updated _ _ _ | Deleted _ _ _ => persist st
  | Sync | Enabled => st
  end.

(** [this.events.emit]: the listeners run before [emit] returns; [enabled]
    also fires the [once] listeners of the parked calls. *)
Definition emit (e : StateEvent) (st : State) : State :=
  let st := registerEventListeners e (record (Emit e) st) in
  match e with
  | Enabled => with_parked 0 st
  | _ => st
  end.

(** The rest of [persist]: the adapter settles the [i]-th outstanding
    [setItem]; [sync] is emitted when it resolved, and nothing follows a
    rejection. *)
Definition settle (i : nat) (ok : bool) (st : State) : State :=
  match writes st !! i with
  | None => st
  | Some (key, item) =>
      let st := with_writes (take i (writes st) ++ drop (S i) (writes st))
                            (record (Settled key item ok) st) in
      if ok then emit Sync st else st
  end.

(** *** Lookups and mutations *)

(** An object is truthy, so [!sequence] holds exactly when [Map.get] found
    nothing. *)
Definition getState (topic : string) : M Sequence :=
  isEnabled ;;;
  fun st =>
    match JsMap.get (VStr topic) (sequences st) with
    | None => (Threw (NoMatchingTopic (getStateContext st) topic), st)
    | Some sequence => (Returned sequence, st)
    end.

Definition get (topic : string) : M Sequence :=
  isEnabled ;;;
  sequence <- getState topic ;;
  ret sequence.

Definition update (topic : string) (update : Patch) : M unit :=
  isEnabled ;;;
  current <- getState topic ;;
  let sequence := spread current update in
  modify (fun st => with_sequences (JsMap.set (VStr topic) sequence (sequences st)) st) ;;;
  modify (emit (Updated topic sequence update)).

(** In the branch of a known topic the promise of [update] is dropped, not
    awaited: [set] resolves whatever [update] does.  The dropped call is
    followed to its end here, as if nothing ran in between. *)
Definition set (topic : string) (sequence : Sequence) : M unit :=
  isEnabled ;;;
  fun st =>
    if JsMap.has (VStr topic) (sequences st) then
      (Returned tt, snd (update topic sequence st))
    else
      (Returned tt, emit (Created topic sequence) st).

Definition delete (topic : string) (reason : Reason) : M unit :=
  isEnabled ;;;
  fun st =>
    if negb (JsMap.has (VStr topic) (sequences st)) then (Returned tt, st)
    else
      (sequence <- getState topic ;;
       modify (fun st => with_sequences (JsMap.delete (VStr topic) (sequences st)) st) ;;;
       modify (emit (Deleted topic sequence reason))) st.

(** *** Restore *)

(** What [storage.getItem] comes back with. *)
Inductive persisted : Type :=
| PUndefined
| PNull
| PArray (items : list entry).

Inductive read_result : Type :=
| ReadRejects (reason : string)
| ReadResolves (p : persisted).

Definition enable : M unit :=
  modify (with_cached []) ;;;
  modify (emit Enabled).

(** [this.cached.forEach(sequence => this.sequences.set(sequence.topic, sequence))];
    reading [.topic] of [null] or [undefined] is a [TypeError]. *)
Fixpoint forEach_set (items : list entry) : M unit :=
  match items with
  | [] => ret tt
  | None :: _ => throw TypeError
  | Some sequence :: rest =>
      modify (fun st =>
        with_sequences (JsMap.set (topic_of sequence) sequence (sequences st)) st) ;;;
      forEach_set rest
  end.

(** The [try] block of [restore]. *)
Definition restore_try (r : read_result) : M unit :=
  modify (fun st => record (GetItem (getStorageKey st)) st) ;;;
  match r with
  | ReadRejects reason => throw (StorageError reason)
  | ReadResolves PUndefined => ret tt
  | ReadResolves PNull => throw TypeError
  | ReadResolves (PArray items) =>
      match items with
      | [] => ret tt
      | _ :: _ =>
          fun st =>
            if negb (Nat.eqb (JsMap.size (sequences st)) 0) then
              (Threw (RestoreWillOverride (getStateContext st)), st)
            else
              (modify (with_cached items) ;;;
               forEach_set items ;;;
               enable) st
      end
  end.

(** [try { ... } catch (e) { log }]: an exception ends the block and the
    promise still resolves. *)
Definition restore (r : read_result) : M unit :=
  fun st =>
    match restore_try r st with
    | (Threw _, st') => (Returned tt, st')
    | other => other
    end.

Definition init (r : read_result) : M unit := restore r.

(** ** Construction and runs *)

Section Construction.
(** [generateChildLogger] of [@walletconnect/logger], seen through the
    contexts of the loggers: the context of the child from the context of
    the parent and the name of the store. *)
Variable generateChildLogger : string -> string -> string.

(** [new State(client, logger, context)] *)
Definition new_State (client : IClient) (logger : string) (context : string) : State :=
  {| client := client;
     logger := generateChildLogger logger context;
     sequences := [];
     cached := [];
     parked := 0;
     writes := [];
     trace := [] |}.
End Construction.

(** What can happen to a store: a call of one of its methods, followed to the
    settling of its promise, or the adapter settling an outstanding write. *)
Inductive call : Type :=
| CallInit (r : read_result)
| CallSet (topic : string) (sequence : Sequence)
| CallGet (topic : string)
| CallUpdate (topic : string) (update : Patch)
| CallDelete (topic : string) (reason : Reason)
| AdapterSettles (i : nat) (ok : bool).

Definition step (c : call) (st : State) : State :=
  match c with
  | CallInit r => snd (init r st)
  | CallSet topic sequence => snd (set topic sequence st)
  | CallGet topic => snd (get topic st)
  | CallUpdate topic u => snd (update topic u st)
  | CallDelete topic reason => snd (delete topic reason st)
  | AdapterSettles i ok => settle i ok st
  end.

Definition run (cs : list call) (st : State) : State :=
  fold_left (fun st c => step c st) cs st.

(** The adapter keeps to the type of [getItem<Sequence[]>]: it rejects, or
    resolves with [undefined] or an array of objects. *)
Definition well_typed (r : read_result) : bool :=
  match r with
  | ReadRejects _ => true
  | ReadResolves PUndefined => true
  | ReadResolves PNull => false
  | ReadResolves (PArray items) =>
      forallb (fun e => match e with Some _ => true | None => false end) items
  end.

Definition well_typed_call (c : call) : bool :=
  match c with
  | CallInit r => well_typed r
  | _ => true
  end.

(** A computation keeps a property of the store when the store it leaves has
    the property whenever the store it starts from has it. *)
Definition keeps (P : State -> Prop) {A : Type} (m : M A) : Prop :=
  forall st, P st -> P (snd (m st)).

(** What holds of the trace and of the outstanding writes all along: a
    [sync] follows a resolved write, an outstanding write was handed to the
    adapter, and there are as many writes as persisting events. *)
Definition persist_inv (st : State) : Prop :=
  sync_follows_write (trace st) /\
  (forall key item, In (key, item) (writes st) -> In (SetItem key item) (trace st)) /\
  count_actions is_publish_event (trace st) = count_actions is_setItem (trace st).

(** The store reads and writes one key. *)
Definition key_inv (key : string) (st : State) : Prop :=
  getStorageKey st = key /\
  Forall (uses_key key) (trace st) /\
  Forall (fun w => fst w = key) (writes st).

(** ** Further readings of the store *)

(** The record a restore leaves under a key: the last one of the snapshot
    whose [topic] field is the key. *)
Definition last_with_topic (k : value) (items : list Sequence) : option Sequence :=
  List.find (fun s => bool_decide (topic_of s = k)) (rev items).

(** The records of a table sit under their own [topic] field. *)
Definition keyed_by_topic (m : list (value * Sequence)) : Prop :=
  Forall (fun kv => topic_of (snd kv) = fst kv) m.

(** A context segment: a string without [/]. *)
Fixpoint slash_free (s : string) : bool :=
  match s with
  | EmptyString => true
  | String c s' => negb (Ascii.eqb c "/"%char) && slash_free s'
  end.

Definition is_settled (a : action) : bool :=
  match a with Settled _ _ _ => true | _ => false end.

Definition is_resolved (a : action) : bool :=
  match a with Settled _ _ true => true | _ => false end.

Definition is_sync_event (a : action) : bool :=
  match a with Emit Sync => true | _ => false end.

(** Every write handed to the adapter is outstanding or was settled once,
    and [sync] was emitted once per resolved write. *)
Definition write_inv (st : State) : Prop :=
  count_actions is_setItem (trace st) =
    count_actions is_settled (trace st) + List.length (writes st) /\
  count_actions is_sync_event (trace st) = count_actions is_resolved (trace st).

(** The calls that go through the gate. *)
Definition is_method_call (c : call) : bool :=
  match c with
  | CallSet _ _ | CallGet _ | CallUpdate _ _ | CallDelete _ _ => true
  | CallInit _ | AdapterSettles _ _ => false
  end.

(** ** Sample data *)

(** A child context in the shape [parent/child]. *)
Definition childContext (parent child : string) : string :=
  parent +:+ "/" +:+ child.

Definition sample_client : IClient :=
  {| protocol := "wc"; version := "2"; context := "client" |}.

Definition sample_store : State :=
  new_State childContext sample_client "client" "session".

Definition seq_t1 : Sequence := {[ "topic" := VStr "t1"; "v" := VNum 1 ]}.
Definition seq_t1' : Sequence := {[ "topic" := VStr "t1"; "v" := VNum 7 ]}.
Definition seq_t2 : Sequence := {[ "topic" := VStr "t2"; "v" := VNum 2 ]}.
Definition patch_v2 : Patch := {[ "v" := VNum 2 ]}.
Definition reason_done : Reason := {| code := 0; message := "done" |}.

Definition patch_w : Patch := {[ "w" := VNum 9 ]}.

(** The sample store after it restored [seq_t1] and [seq_t2]. *)
Definition restored_store : State :=
  snd (init (ReadResolves (PArray [Some seq_t1; Some seq_t2])) sample_store).

(** The sample store after a snapshot with a [null] entry. *)
Definition stalled_store : State :=
  snd (init (ReadResolves (PArray [Some seq_t1; None; Some seq_t2])) sample_store).

(** * Properties *)

(** ** The JS [Map] *)

Section JsMapFacts.
Context {K V : Type} `{EqDecision K}.
Implicit Types (k : K) (v : V) (m : list (K * V)).

Lemma has_get k m : JsMap.has k m = true <-> is_Some (JsMap.get k m).
Proof.
  unfold JsMap.has. destruct (JsMap.get k m); split; intros Hx; eauto.
  - discriminate.
  - by destruct Hx.
Qed.

Lemma has_false_get k m : JsMap.has k m = false <-> JsMap.get k m = None.
Proof. unfold JsMap.has. destruct (JsMap.get k m); split; congruence. Qed.

Lemma get_set_eq k v m : JsMap.get k (JsMap.set k v m) = Some v.
Proof.
  induction m as [|[k' v'] m IH]; simpl.
  - by rewrite decide_True.
  - destruct (decide (k = k')) as [->|Hne]; simpl.
    + by rewrite decide_True.
    + by rewrite decide_False.
Qed.

Lemma get_set_ne k k' v m :
  k <> k' -> JsMap.get k' (JsMap.set k v m) = JsMap.get k' m.
Proof.
  intros Hne. induction m as [|[k0 v0] m IH]; simpl.
  - rewrite decide_False; [done | congruence].
  - destruct (decide (k = k0)) as [->|Hk]; simpl.
    + rewrite !decide_False; [done | congruence | congruence].
    + destruct (decide (k' = k0)); [done | apply IH].
Qed.

Lemma get_delete_eq k m : JsMap.get k (JsMap.delete k m) = None.
Proof.
  induction m as [|[k' v'] m IH]; simpl; [done |].
  destruct (decide (k = k')) as [->|Hne]; simpl; [done |].
  by rewrite decide_False.
Qed.

Lemma get_delete_ne k k' m :
  k <> k' -> JsMap.get k' (JsMap.delete k m) = JsMap.get k' m.
Proof.
  intros Hne. induction m as [|[k0 v0] m IH]; simpl; [done |].
  destruct (decide (k = k0)) as [->|Hk]; simpl.
  - rewrite IH. rewrite decide_False; [done | congruence].
  - destruct (decide (k' = k0)); [done | apply IH].
Qed.

Lemma get_None_keys k m : JsMap.get k m = None <-> k ∉ JsMap.keys m.
Proof.
  induction m as [|[k' v'] m IH]; simpl.
  - split; [intros _; apply not_elem_of_nil | done].
  - rewrite not_elem_of_cons. destruct (decide (k = k')) as [->|Hne].
    + split; [discriminate | intros [Hx _]; by destruct Hx].
    + rewrite IH. tauto.
Qed.

(** A key the table does not hold is appended. *)
Lemma set_fresh k v m : k ∉ JsMap.keys m -> JsMap.set k v m = m ++ [(k, v)].
Proof.
  induction m as [|[k' v'] m IH]; simpl; [done |].
  rewrite not_elem_of_cons. intros [Hne Hnin].
  rewrite decide_False by done. by rewrite IH.
Qed.

(** A key the table holds is overwritten where it stands: the keys and
    their order stay. *)
Lemma keys_set_present k v m :
  JsMap.has k m = true -> JsMap.keys (JsMap.set k v m) = JsMap.keys m.
Proof.
  unfold JsMap.has. induction m as [|[k' v'] m IH]; simpl; [done |].
  destruct (decide (k = k')) as [->|Hne]; simpl; [done |].
  intros Hh. by rewrite IH.
Qed.
End JsMapFacts.

(** ** Spread *)

Lemma spread_lookup (sequence : Sequence) (update : Patch) (field : string) :
  spread sequence update !! field =
  match update !! field with
  | Some v => Some v
  | None => sequence !! field
  end.
Proof.
  unfold spread. rewrite lookup_union.
  destruct (update !! field), (sequence !! field); reflexivity.
Qed.

(** ** Setters of the state record *)

Lemma with_sequences_id st : with_sequences (sequences st) st = st.
Proof. by destruct st. Qed.

(** ** The gate *)

Lemma isEnabled_open st : cached st = [] -> isEnabled st = (Returned tt, st).
Proof. unfold isEnabled. by intros ->. Qed.

Lemma isEnabled_closed st :
  cached st <> [] -> isEnabled st = (Parked, with_parked (S (parked st)) st).
Proof. unfold isEnabled. by destruct (cached st). Qed.

(** ** Lookup *)

Lemma getState_absent topic st :
  cached st = [] ->
  JsMap.has (VStr topic) (sequences st) = false ->
  getState topic st = (Threw (NoMatchingTopic (getStateContext st) topic), st).
Proof.
  intros Hc Hh. apply has_false_get in Hh.
  unfold getState, bind. rewrite (isEnabled_open st Hc). by rewrite Hh.
Qed.

Lemma getState_present topic sequence st :
  cached st = [] ->
  JsMap.get (VStr topic) (sequences st) = Some sequence ->
  getState topic st = (Returned sequence, st).
Proof.
  intros Hc Hg. unfold getState, bind. rewrite (isEnabled_open st Hc).
  by rewrite Hg.
Qed.

(** ** Calls on a topic the store does not hold *)

Lemma get_absent topic st :
  cached st = [] ->
  JsMap.has (VStr topic) (sequences st) = false ->
  get topic st = (Threw (NoMatchingTopic (getStateContext st) topic), st).
Proof.
  intros Hc Hh. unfold get, bind. rewrite (isEnabled_open st Hc).
  by rewrite (getState_absent topic st Hc Hh).
Qed.

Lemma update_absent topic u st :
  cached st = [] ->
  JsMap.has (VStr topic) (sequences st) = false ->
  update topic u st = (Threw (NoMatchingTopic (getStateContext st) topic), st).
Proof.
  intros Hc Hh. unfold update, bind. rewrite (isEnabled_open st Hc).
  by rewrite (getState_absent topic st Hc Hh).
Qed.

Lemma delete_absent topic reason st :
  cached st = [] ->
  JsMap.has (VStr topic) (sequences st) = false ->
  delete topic reason st = (Returned tt, st).
Proof.
  intros Hc Hh. unfold delete, bind. rewrite (isEnabled_open st Hc).
  by rewrite Hh.
Qed.

Lemma update_parked topic u st :
  cached st <> [] ->
  update topic u st = (Parked, with_parked (S (parked st)) st).
Proof.
  intros Hc. unfold update, bind. by rewrite (isEnabled_closed st Hc).
Qed.

(** C4. With the gate open and the topic absent from [sequences], [get] and
    [update] reject with [NoMatchingTopic] (carrying the state context and
    the topic), and [delete] resolves; none of the three changes the store. *)
Theorem absent_topic_get_update_throw_delete_returns
    (st : State) (topic : string) (u : Patch) (reason : Reason) :
  cached st = [] ->
  JsMap.has (VStr topic) (sequences st) = false ->
  get topic st = (Threw (NoMatchingTopic (getStateContext st) topic), st) /\
  update topic u st = (Threw (NoMatchingTopic (getStateContext st) topic), st) /\
  delete topic reason st = (Returned tt, st).
Proof.
  intros Hc Hh. split; [|split].
  - by apply get_absent.
  - by apply update_absent.
  - by apply delete_absent.
Qed.

Lemma absent_topic_get_update_throw_delete_returns_witness :
  cached restored_store = [] /\
  JsMap.has (VStr "t3") (sequences restored_store) = false /\
  get "t3" restored_store =
    (Threw (NoMatchingTopic "client session" "t3"), restored_store) /\
  update "t3" patch_v2 restored_store =
    (Threw (NoMatchingTopic "client session" "t3"), restored_store) /\
  delete "t3" reason_done restored_store = (Returned tt, restored_store).
Proof.
  split; [reflexivity | split; [reflexivity |]].
  apply (absent_topic_get_update_throw_delete_returns
           restored_store "t3" patch_v2 reason_done); reflexivity.
Defined.

(** C9. [update] on a topic absent from [sequences] never resolves and
    changes nothing: the map, the emitted events and the writes handed to the
    adapter are as before, so no [updated] event and no persistence write.
    With the gate open (as it is after every settled call, see
    [run_gate_open]) the promise rejects with [NoMatchingTopic] and the whole
    store is as it was. *)
Theorem update_absent_is_atomic (st : State) (topic : string) (u : Patch) :
  JsMap.has (VStr topic) (sequences st) = false ->
  fst (update topic u st) <> Returned tt /\
  sequences (snd (update topic u st)) = sequences st /\
  trace (snd (update topic u st)) = trace st /\
  writes (snd (update topic u st)) = writes st /\
  (cached st = [] ->
   update topic u st = (Threw (NoMatchingTopic (getStateContext st) topic), st)).
Proof.
  intros Hh. destruct (decide (cached st = [])) as [Hc|Hc].
  - rewrite (update_absent topic u st Hc Hh). simpl. repeat split; congruence.
  - rewrite (update_parked topic u st Hc). simpl. repeat split; congruence.
Qed.

Lemma update_absent_is_atomic_witness :
  JsMap.has (VStr "t3") (sequences restored_store) = false /\
  fst (update "t3" patch_v2 restored_store) <> Returned tt /\
  sequences (snd (update "t3" patch_v2 restored_store)) = sequences restored_store /\
  trace (snd (update "t3" patch_v2 restored_store)) = trace restored_store /\
  writes (snd (update "t3" patch_v2 restored_store)) = writes restored_store /\
  (cached restored_store = [] ->
   update "t3" patch_v2 restored_store =
     (Threw (NoMatchingTopic (getStateContext restored_store) "t3"), restored_store)).
Proof.
  split; [reflexivity |].
  apply (update_absent_is_atomic restored_store "t3" patch_v2). reflexivity.
Defined.

(** ** [update] and [delete] on a topic the store holds *)

Lemma update_present topic current u st :
  cached st = [] ->
  JsMap.get (VStr topic) (sequences st) = Some current ->
  update topic u st =
    (Returned tt,
     emit (Updated topic (spread current u) u)
       (with_sequences (JsMap.set (VStr topic) (spread current u) (sequences st)) st)).
Proof.
  intros Hc Hg. unfold update, bind. rewrite (isEnabled_open st Hc).
  by rewrite (getState_present topic current st Hc Hg).
Qed.

Lemma delete_present topic current reason st :
  cached st = [] ->
  JsMap.get (VStr topic) (sequences st) = Some current ->
  delete topic reason st =
    (Returned tt,
     emit (Deleted topic current reason)
       (with_sequences (JsMap.delete (VStr topic) (sequences st)) st)).
Proof.
  intros Hc Hg. unfold delete, bind. rewrite (isEnabled_open st Hc).
  unfold JsMap.has. rewrite Hg. simpl.
  by rewrite (getState_present topic current st Hc Hg).
Qed.

(** A call that resolved went through the gate. *)
Lemma update_returned_open topic u st st' :
  update topic u st = (Returned tt, st') -> cached st = [].
Proof.
  intros Hu. destruct (decide (cached st = [])) as [Hc|Hc]; [done |].
  rewrite (update_parked topic u st Hc) in Hu. discriminate.
Qed.

Lemma delete_returned_open topic reason st st' :
  delete topic reason st = (Returned tt, st') -> cached st = [].
Proof.
  intros Hd. destruct (decide (cached st = [])) as [Hc|Hc]; [done |].
  unfold delete, bind in Hd. rewrite (isEnabled_closed st Hc) in Hd.
  discriminate.
Qed.

(** C5. With the gate open and [sequences] holding [current] at [topic],
    [update] resolves having stored the spread of [current] and the patch at
    [topic]: a field of the patch wins, every other field is the one of
    [current].  It emits one [updated] event that carries the merged record
    and the patch as given. *)
Theorem update_stores_shallow_merge
    (st : State) (topic : string) (current : Sequence) (u : Patch) :
  cached st = [] ->
  JsMap.get (VStr topic) (sequences st) = Some current ->
  let merged := spread current u in
  let st' := snd (update topic u st) in
  fst (update topic u st) = Returned tt /\
  sequences st' = JsMap.set (VStr topic) merged (sequences st) /\
  JsMap.get (VStr topic) (sequences st') = Some merged /\
  (forall field : string,
     merged !! field =
     match u !! field with Some v => Some v | None => current !! field end) /\
  trace st' =
    trace st ++ [Emit (Updated topic merged u); SetItem (getStorageKey st) (values st')].
Proof.
  intros Hc Hg merged st'. subst merged st'.
  rewrite (update_present topic current u st Hc Hg). simpl.
  split; [done |]. split; [done |]. split; [apply get_set_eq |].
  split; [intros field; apply spread_lookup |].
  by rewrite <- app_assoc.
Qed.

Lemma update_stores_shallow_merge_witness :
  cached restored_store = [] /\
  JsMap.get (VStr "t1") (sequences restored_store) = Some seq_t1 /\
  fst (update "t1" patch_v2 restored_store) = Returned tt /\
  JsMap.get (VStr "t1") (sequences (snd (update "t1" patch_v2 restored_store))) =
    Some (spread seq_t1 patch_v2) /\
  spread seq_t1 patch_v2 !! "v" = Some (VNum 2) /\
  spread seq_t1 patch_v2 !! "topic" = Some (VStr "t1").
Proof.
  split; [reflexivity |]. split; [reflexivity |].
  destruct (update_stores_shallow_merge restored_store "t1" seq_t1 patch_v2)
    as (Hret & _ & Hget & Hfields & _); [reflexivity | reflexivity |].
  split; [exact Hret |]. split; [exact Hget |].
  split; [rewrite (Hfields "v") | rewrite (Hfields "topic")]; reflexivity.
Defined.

(** C10. When [update] or [delete] on a topic the store holds resolves, the
    entry of every other key is what it was: [update] rewrites the entry of
    its topic only, [delete] removes the entry of its topic only. *)
Theorem update_delete_frame
    (st st' : State) (topic : string) (u : Patch) (reason : Reason) (k : value) :
  JsMap.has (VStr topic) (sequences st) = true ->
  k <> VStr topic ->
  (update topic u st = (Returned tt, st') ->
   JsMap.get k (sequences st') = JsMap.get k (sequences st)) /\
  (delete topic reason st = (Returned tt, st') ->
   JsMap.get k (sequences st') = JsMap.get k (sequences st) /\
   JsMap.get (VStr topic) (sequences st') = None).
Proof.
  intros Hh Hk. apply has_get in Hh as [current Hg]. split.
  - intros Hu. pose proof (update_returned_open _ _ _ _ Hu) as Hc.
    rewrite (update_present topic current u st Hc Hg) in Hu.
    injection Hu as <-. simpl. apply get_set_ne. congruence.
  - intros Hd. pose proof (delete_returned_open _ _ _ _ Hd) as Hc.
    rewrite (delete_present topic current reason st Hc Hg) in Hd.
    injection Hd as <-. simpl. split.
    + apply get_delete_ne. congruence.
    + apply get_delete_eq.
Qed.

Lemma update_delete_frame_witness :
  JsMap.has (VStr "t1") (sequences restored_store) = true /\
  VStr "t2" <> VStr "t1" /\
  JsMap.get (VStr "t2") (sequences (snd (update "t1" patch_v2 restored_store))) =
    Some seq_t2 /\
  JsMap.get (VStr "t2") (sequences (snd (delete "t1" reason_done restored_store))) =
    Some seq_t2.
Proof.
  split; [reflexivity |]. split; [discriminate |]. split.
  - destruct (update_delete_frame restored_store
                (snd (update "t1" patch_v2 restored_store))
                "t1" patch_v2 reason_done (VStr "t2")) as [Hu _];
      [reflexivity | discriminate |].
    rewrite Hu; reflexivity.
  - destruct (update_delete_frame restored_store
                (snd (delete "t1" reason_done restored_store))
                "t1" patch_v2 reason_done (VStr "t2")) as [_ Hd];
      [reflexivity | discriminate |].
    destruct Hd as [Hd _]; [reflexivity |]. rewrite Hd; reflexivity.
Defined.

(** ** [set] on a new topic *)

(** C1. What [set] does on a topic the store does not hold, with the gate
    open: it resolves and emits [created], the write that follows carries
    the values as they were, and [sequences] is not touched; so the [get]
    that follows rejects with [NoMatchingTopic] and does not return the
    sequence. *)
Theorem set_new_topic_then_get
    (st : State) (topic : string) (sequence : Sequence) :
  cached st = [] ->
  JsMap.has (VStr topic) (sequences st) = false ->
  let st' := snd (set topic sequence st) in
  fst (set topic sequence st) = Returned tt /\
  sequences st' = sequences st /\
  trace st' =
    trace st ++ [Emit (Created topic sequence); SetItem (getStorageKey st) (values st)] /\
  get topic st' = (Threw (NoMatchingTopic (getStateContext st) topic), st').
Proof.
  intros Hc Hh st'. subst st'.
  unfold set, bind. rewrite (isEnabled_open st Hc). rewrite Hh. simpl.
  split; [done |]. split; [done |]. split; [by rewrite <- app_assoc |].
  exact (get_absent topic (emit (Created topic sequence) st) Hc Hh).
Qed.

Lemma set_new_topic_then_get_witness :
  cached sample_store = [] /\
  JsMap.has (VStr "t1") (sequences sample_store) = false /\
  fst (set "t1" seq_t1 sample_store) = Returned tt /\
  sequences (snd (set "t1" seq_t1 sample_store)) = [] /\
  fst (get "t1" (snd (set "t1" seq_t1 sample_store))) =
    Threw (NoMatchingTopic "client session" "t1").
Proof.
  split; [reflexivity |]. split; [reflexivity |].
  destruct (set_new_topic_then_get sample_store "t1" seq_t1)
    as (Hret & Hseq & _ & Hget); [reflexivity | reflexivity |].
  split; [exact Hret |]. split; [exact Hseq |].
  rewrite Hget. reflexivity.
Defined.

(** ** Restore *)

Lemma forEach_set_objects (items : list Sequence) (st : State) :
  forEach_set (List.map Some items) st =
    (Returned tt,
     with_sequences
       (fold_left (fun m s => JsMap.set (topic_of s) s m) items (sequences st)) st).
Proof.
  revert st. induction items as [|s items IH]; intros st; simpl.
  - unfold ret. by rewrite with_sequences_id.
  - unfold bind, modify. by rewrite IH.
Qed.

(** Records with pairwise distinct topics, none of them in the table yet, go
    into the table one after the other. *)
Lemma fold_set_distinct (items : list Sequence) (m : list (value * Sequence)) :
  NoDup (JsMap.keys m ++ List.map topic_of items) ->
  fold_left (fun m s => JsMap.set (topic_of s) s m) items m =
    m ++ List.map (fun s => (topic_of s, s)) items.
Proof.
  revert m. induction items as [|s items IH]; intros m Hnd; simpl.
  - by rewrite app_nil_r.
  - assert (Hfresh : topic_of s ∉ JsMap.keys m).
    { apply NoDup_app in Hnd as (_ & Hdisj & _). intros Hin.
      apply (Hdisj _ Hin). simpl. apply elem_of_cons. by left. }
    rewrite (set_fresh _ _ _ Hfresh). rewrite IH.
    + by rewrite <- app_assoc.
    + unfold JsMap.keys in *. rewrite map_app. simpl.
      rewrite <- app_assoc. exact Hnd.
Qed.

(** [forEach] writes the table and nothing else, and it never parks. *)
Lemma forEach_set_frame (items : list entry) (st : State) :
  trace (snd (forEach_set items st)) = trace st /\
  writes (snd (forEach_set items st)) = writes st /\
  client (snd (forEach_set items st)) = client st /\
  logger (snd (forEach_set items st)) = logger st /\
  cached (snd (forEach_set items st)) = cached st /\
  parked (snd (forEach_set items st)) = parked st /\
  fst (forEach_set items st) <> Parked.
Proof.
  revert st. induction items as [|[s|] items IH]; intros st; simpl.
  - repeat split; discriminate.
  - unfold bind, modify. apply (IH (with_sequences _ st)).
  - repeat split; discriminate.
Qed.

(** What [init] leaves in the trace: the read, and [enabled] when the
    snapshot went in.  It hands nothing to the adapter to write. *)
Lemma init_effect (r : read_result) (st : State) :
  fst (init r st) = Returned tt /\
  (exists rest, (rest = [] \/ rest = [Emit Enabled]) /\
     trace (snd (init r st)) = trace st ++ GetItem (getStorageKey st) :: rest) /\
  writes (snd (init r st)) = writes st /\
  client (snd (init r st)) = client st /\
  logger (snd (init r st)) = logger st.
Proof.
  unfold init, restore, restore_try, bind, modify.
  destruct r as [reason | [| | items]]; cbv beta iota.
  1-3: (split; [done |]; split; [exists []; by split; [left|] | done]).
  destruct items as [|e items]; cbv beta iota.
  { split; [done |]; split; [exists []; by split; [left|] | done]. }
  remember (e :: items) as l eqn:Hl. clear Hl.
  set (st1 := record _ st).
  destruct (negb (Nat.eqb (JsMap.size (sequences st1)) 0)).
  { split; [done |]; split; [exists []; by split; [left|] | done]. }
  unfold enable, bind, modify. set (st2 := with_cached l st1).
  destruct (forEach_set_frame l st2) as (Htr & Hw & Hcl & Hlog & _ & _ & Hnp).
  destruct (forEach_set l st2) as [[u|err|] st3]; simpl in *.
  - split; [done |]. split; [| done].
    exists [Emit Enabled]. split; [by right |].
    rewrite Htr. by rewrite <- app_assoc.
  - split; [done |]. split; [| done].
    exists []. split; [by left |]. by rewrite Htr.
  - done.
Qed.

Lemma count_actions_app p tr tr' :
  count_actions p (tr ++ tr') = count_actions p tr + count_actions p tr'.
Proof. unfold count_actions. by rewrite List.filter_app, length_app. Qed.

Lemma restore_objects (items : list Sequence) (st : State) :
  items <> [] ->
  sequences st = [] ->
  restore_try (ReadResolves (PArray (List.map Some items))) st =
    (Returned tt,
     emit Enabled
       (with_cached []
          (with_sequences
             (fold_left (fun m s => JsMap.set (topic_of s) s m) items [])
             (with_cached (List.map Some items)
                (record (GetItem (getStorageKey st)) st))))).
Proof.
  intros Hne Hempty. unfold restore_try, bind, modify.
  destruct items as [|s items]; [done |].
  change (List.map Some (s :: items)) with (Some s :: List.map Some items).
  cbv beta iota. simpl sequences. rewrite Hempty. simpl negb. cbv iota.
  change (Some s :: List.map Some items) with (List.map Some (s :: items)).
  rewrite forEach_set_objects. simpl sequences. rewrite Hempty. reflexivity.
Qed.

(** C2, as the code has it.  With [sequences] empty and a persisted snapshot
    that is not empty and whose records have pairwise distinct [topic]
    fields, [init] resolves with [sequences] holding exactly the records of
    the snapshot, each under its [topic] field and in the order of the
    snapshot; it clears the gate, emits [enabled] once and no [created], and
    hands no write to the adapter. *)
Theorem init_restores_snapshot (st : State) (items : list Sequence) :
  items <> [] ->
  NoDup (List.map topic_of items) ->
  sequences st = [] ->
  let st' := snd (init (ReadResolves (PArray (List.map Some items))) st) in
  fst (init (ReadResolves (PArray (List.map Some items))) st) = Returned tt /\
  sequences st' = List.map (fun s => (topic_of s, s)) items /\
  values st' = items /\
  length st' = List.length items /\
  cached st' = [] /\
  trace st' = trace st ++ [GetItem (getStorageKey st); Emit Enabled] /\
  count_actions is_created_event (trace st') =
    count_actions is_created_event (trace st) /\
  count_actions is_enabled_event (trace st') =
    S (count_actions is_enabled_event (trace st)) /\
  writes st' = writes st.
Proof.
  intros Hne Hnd Hempty st'. subst st'.
  unfold init, restore. rewrite (restore_objects items st Hne Hempty).
  cbn [fst snd].
  assert (Hfold : fold_left (fun m s => JsMap.set (topic_of s) s m) items [] =
                  List.map (fun s => (topic_of s, s)) items).
  { by rewrite (fold_set_distinct items []). }
  rewrite Hfold.
  assert (Htr : trace (emit Enabled (with_cached []
             (with_sequences (List.map (fun s => (topic_of s, s)) items)
               (with_cached (List.map Some items)
                 (record (GetItem (getStorageKey st)) st))))) =
           trace st ++ [GetItem (getStorageKey st); Emit Enabled]).
  { simpl. by rewrite <- app_assoc. }
  split; [done |]. split; [done |].
  split. { unfold values, JsMap.values. simpl. rewrite List.map_map. simpl. apply List.map_id. }
  split. { unfold length, JsMap.size. simpl. by rewrite length_map. }
  split; [done |]. split; [exact Htr |].
  rewrite Htr, !count_actions_app.
  split; [unfold count_actions; simpl; lia |].
  split; [unfold count_actions; simpl; lia | done].
Qed.

Lemma init_restores_snapshot_witness :
  [seq_t1; seq_t2] <> [] /\
  NoDup (List.map topic_of [seq_t1; seq_t2]) /\
  sequences sample_store = [] /\
  sequences restored_store = [(VStr "t1", seq_t1); (VStr "t2", seq_t2)] /\
  values restored_store = [seq_t1; seq_t2] /\
  trace restored_store = [GetItem "wc@2:client//client:session"; Emit Enabled].
Proof.
  assert (Hnd : NoDup (List.map topic_of [seq_t1; seq_t2])) by compute_done.
  split; [discriminate |]. split; [exact Hnd |]. split; [reflexivity |].
  destruct (init_restores_snapshot sample_store [seq_t1; seq_t2])
    as (_ & Hseq & Hval & _ & _ & Htr & _); [discriminate | exact Hnd | reflexivity |].
  split; [exact Hseq |]. split; [exact Hval |]. exact Htr.
Defined.

(** C2, as it is worded, fails on two snapshots.  On the empty snapshot
    [init] returns before the gate: no [enabled] is emitted.  On a snapshot
    of two records with one topic the second record takes the place of the
    first: [sequences] ends with one record, not two. *)
Lemma init_restores_snapshot_counterexample :
  sequences sample_store = [] /\
  count_actions is_enabled_event
    (trace (snd (init (ReadResolves (PArray [])) sample_store))) = 0 /\
  seq_t1 <> seq_t1' /\
  sequences (snd (init (ReadResolves (PArray [Some seq_t1; Some seq_t1'])) sample_store)) =
    [(VStr "t1", seq_t1')] /\
  length (snd (init (ReadResolves (PArray [Some seq_t1; Some seq_t1'])) sample_store)) = 1.
Proof.
  split; [reflexivity |]. split; [reflexivity |].
  split; [| split; reflexivity].
  intros Heq. assert (H1 : seq_t1 !! "v" = seq_t1' !! "v") by (by rewrite Heq).
  vm_compute in H1. discriminate.
Qed.

Lemma restore_try_conflict (items : list entry) (st : State) :
  items <> [] ->
  sequences st <> [] ->
  restore_try (ReadResolves (PArray items)) st =
    (Threw (RestoreWillOverride (getStateContext st)),
     record (GetItem (getStorageKey st)) st).
Proof.
  intros Hne Hseq. unfold restore_try, bind, modify.
  destruct items as [|e items]; [done |]. cbv beta iota. simpl sequences.
  destruct (sequences st) as [|kv m] eqn:Hm; [done |]. reflexivity.
Qed.

Lemma init_conflict (items : list entry) (st : State) :
  items <> [] ->
  sequences st <> [] ->
  init (ReadResolves (PArray items)) st =
    (Returned tt, record (GetItem (getStorageKey st)) st).
Proof.
  intros Hne Hseq. unfold init, restore.
  by rewrite (restore_try_conflict items st Hne Hseq).
Qed.

(** C3. With a persisted snapshot that is not empty and [sequences] holding
    a record already, [init] resolves and the store is as it was but for the
    read recorded in the trace: [sequences] is untouched (nothing of the
    snapshot went in), [cached] is untouched (the gate did not move) and no
    [enabled] is emitted. *)
Theorem init_conflict_leaves_store (st : State) (items : list entry) :
  items <> [] ->
  sequences st <> [] ->
  let st' := snd (init (ReadResolves (PArray items)) st) in
  init (ReadResolves (PArray items)) st =
    (Returned tt, record (GetItem (getStorageKey st)) st) /\
  sequences st' = sequences st /\
  cached st' = cached st /\
  parked st' = parked st /\
  writes st' = writes st /\
  count_actions is_enabled_event (trace st') =
    count_actions is_enabled_event (trace st).
Proof.
  intros Hne Hseq st'. subst st'.
  rewrite (init_conflict items st Hne Hseq).
  cbn [fst snd]. repeat (split; [reflexivity |]).
  simpl. rewrite count_actions_app. unfold count_actions at 2. simpl. lia.
Qed.

Lemma init_conflict_leaves_store_witness :
  [Some seq_t1'] <> [] /\
  sequences restored_store <> [] /\
  sequences (snd (init (ReadResolves (PArray [Some seq_t1'])) restored_store)) =
    [(VStr "t1", seq_t1); (VStr "t2", seq_t2)] /\
  cached (snd (init (ReadResolves (PArray [Some seq_t1'])) restored_store)) = [] /\
  count_actions is_enabled_event
    (trace (snd (init (ReadResolves (PArray [Some seq_t1'])) restored_store))) = 1.
Proof.
  split; [discriminate |]. split; [discriminate |].
  destruct (init_conflict_leaves_store restored_store [Some seq_t1'])
    as (_ & Hseq & Hc & _ & _ & Hen); [discriminate | discriminate |].
  split; [rewrite Hseq; reflexivity |].
  split; [rewrite Hc; reflexivity |].
  rewrite Hen. reflexivity.
Defined.

(** [restore_try] never parks: it does not go through the gate. *)
Lemma restore_try_not_parked (r : read_result) (st : State) :
  fst (restore_try r st) <> Parked.
Proof.
  unfold restore_try, bind, modify.
  destruct r as [reason | [| | items]]; cbv beta iota; try discriminate.
  destruct items as [|e items]; cbv beta iota; [discriminate |].
  remember (e :: items) as l eqn:Hl. clear Hl.
  set (st1 := record _ st).
  destruct (negb (Nat.eqb (JsMap.size (sequences st1)) 0)); [discriminate |].
  unfold enable, bind, modify. set (st2 := with_cached l st1).
  destruct (forEach_set_frame l st2) as (_ & _ & _ & _ & _ & _ & Hnp).
  destruct (forEach_set l st2) as [[u|err|] st3]; simpl in *;
    [discriminate | discriminate | done].
Qed.

(** C7. Whatever the adapter answers (a rejected read, [undefined], [null],
    an array with [null] entries, a snapshot in conflict with the table),
    the promise of [init] resolves: it never rejects and never parks.  When
    the [try] block of [restore] raised at a state, that state is the one
    [init] ends in, so [sequences] is as it was when the exception was
    raised; after a rejected read or a [null] answer it is as it was before
    [init]. *)
Theorem init_never_throws (r : read_result) (st : State) :
  fst (init r st) = Returned tt /\
  (forall (e : Error) (st_e : State),
     restore_try r st = (Threw e, st_e) -> init r st = (Returned tt, st_e)) /\
  (forall (e : Error) (st_e : State),
     restore_try r st = (Threw e, st_e) ->
     (forall items, r = ReadResolves (PArray items) -> sequences st <> []) ->
     sequences st_e = sequences st).
Proof.
  split; [apply init_effect |]. split.
  - intros e st_e Hthrow. unfold init, restore. by rewrite Hthrow.
  - intros e st_e Hthrow Harr.
    destruct r as [reason | [| | items]].
    + unfold restore_try, bind, modify, throw in Hthrow. by injection Hthrow as _ <-.
    + unfold restore_try, bind, modify, ret in Hthrow. by injection Hthrow as _ <-.
    + unfold restore_try, bind, modify, throw in Hthrow. by injection Hthrow as _ <-.
    + destruct items as [|x items].
      * unfold restore_try, bind, modify, ret in Hthrow. by injection Hthrow as _ <-.
      * rewrite restore_try_conflict in Hthrow; [| done | by eapply Harr].
        by injection Hthrow as _ <-.
Qed.

Lemma init_never_throws_witness :
  restore_try (ReadRejects "disk") restored_store =
    (Threw (StorageError "disk"),
     record (GetItem "wc@2:client//client:session") restored_store) /\
  init (ReadRejects "disk") restored_store =
    (Returned tt, record (GetItem "wc@2:client//client:session") restored_store).
Proof.
  split; [reflexivity |].
  destruct (init_never_throws (ReadRejects "disk") restored_store) as (_ & Hcatch & _).
  apply (Hcatch (StorageError "disk")). reflexivity.
Defined.

Lemma restore_try_fresh (items : list entry) (st : State) :
  items <> [] ->
  sequences st = [] ->
  restore_try (ReadResolves (PArray items)) st =
    (modify (with_cached items) ;;; forEach_set items ;;; enable)
      (record (GetItem (getStorageKey st)) st).
Proof.
  intros Hne Hempty. unfold restore_try at 1. unfold bind at 1. unfold modify at 1.
  destruct items as [|e items]; [done |]. cbv beta iota.
  simpl sequences. rewrite Hempty. reflexivity.
Qed.

Lemma forEach_set_null_entry (good : list Sequence) (rest : list entry) (st : State) :
  forEach_set (List.map Some good ++ None :: rest) st =
    (Threw TypeError,
     with_sequences
       (fold_left (fun m s => JsMap.set (topic_of s) s m) good (sequences st)) st).
Proof.
  revert st. induction good as [|s good IH]; intros st; simpl.
  - unfold throw. by rewrite with_sequences_id.
  - unfold bind, modify. by rewrite IH.
Qed.

(** A [null] entry in the snapshot: the records before it are in the table,
    the exception is swallowed, and [cached] keeps the snapshot, so the gate
    stays closed. *)
Lemma init_null_entry (good : list Sequence) (rest : list entry) (st : State) :
  sequences st = [] ->
  fst (init (ReadResolves (PArray (List.map Some good ++ None :: rest))) st) =
    Returned tt /\
  sequences (snd (init (ReadResolves (PArray (List.map Some good ++ None :: rest))) st)) =
    fold_left (fun m s => JsMap.set (topic_of s) s m) good [] /\
  cached (snd (init (ReadResolves (PArray (List.map Some good ++ None :: rest))) st)) =
    List.map Some good ++ None :: rest.
Proof.
  intros Hempty.
  assert (Hinit :
    init (ReadResolves (PArray (List.map Some good ++ None :: rest))) st =
      (Returned tt,
       with_sequences
         (fold_left (fun m s => JsMap.set (topic_of s) s m) good [])
         (with_cached (List.map Some good ++ None :: rest)
            (record (GetItem (getStorageKey st)) st)))).
  { unfold init, restore.
    rewrite restore_try_fresh; [| by destruct good | done].
    unfold bind at 1. unfold modify at 1. unfold bind at 1.
    rewrite forEach_set_null_entry. simpl sequences. by rewrite Hempty. }
  rewrite Hinit. done.
Qed.

(** ** Induction over the life of a store *)

(** A property of the store that the elementary moves keep is kept by every
    call and by every run. *)
Section StoreInduction.
Variable P : State -> Prop.
Hypothesis P_sequences : forall m st, P st -> P (with_sequences m st).
Hypothesis P_cached : forall c st, P st -> P (with_cached c st).
Hypothesis P_parked : forall n st, P st -> P (with_parked n st).
Hypothesis P_read : forall st, P st -> P (record (GetItem (getStorageKey st)) st).
Hypothesis P_emit : forall e st, e <> Sync -> P st -> P (emit e st).
Hypothesis P_settle : forall i ok st, P st -> P (settle i ok st).

Local Abbreviation keeps := (keeps P).

Lemma keeps_ret {A : Type} (a : A) : keeps (ret a).
Proof. by intros st. Qed.

Lemma keeps_throw {A : Type} (e : Error) : keeps (throw (A:=A) e).
Proof. by intros st. Qed.

Lemma keeps_modify (f : State -> State) :
  (forall st, P st -> P (f st)) -> keeps (modify f).
Proof. intros Hf st HP. by apply Hf. Qed.

Lemma keeps_bind {A B : Type} (m : M A) (k : A -> M B) :
  keeps m -> (forall a, keeps (k a)) -> keeps (bind m k).
Proof.
  intros Hm Hk st HP. unfold bind. specialize (Hm st HP).
  destruct (m st) as [[a|e|] st1]; simpl in *; [by apply Hk | done | done].
Qed.

Lemma keeps_isEnabled : keeps isEnabled.
Proof.
  intros st HP. unfold isEnabled. destruct (cached st); simpl; [done |].
  by apply P_parked.
Qed.

Lemma keeps_getState topic : keeps (getState topic).
Proof.
  apply keeps_bind; [apply keeps_isEnabled |]. intros _ st HP.
  by destruct (JsMap.get (VStr topic) (sequences st)).
Qed.

Lemma keeps_get topic : keeps (get topic).
Proof.
  apply keeps_bind; [apply keeps_isEnabled |]. intros _.
  apply keeps_bind; [apply keeps_getState |]. intros sequence. apply keeps_ret.
Qed.

Lemma keeps_update topic u : keeps (update topic u).
Proof.
  apply keeps_bind; [apply keeps_isEnabled |]. intros _.
  apply keeps_bind; [apply keeps_getState |]. intros current.
  apply keeps_bind; [apply keeps_modify; intros st; apply P_sequences |].
  intros _. apply keeps_modify. intros st. by apply P_emit.
Qed.

Lemma keeps_set topic sequence : keeps (set topic sequence).
Proof.
  apply keeps_bind; [apply keeps_isEnabled |]. intros _ st HP.
  destruct (JsMap.has (VStr topic) (sequences st)); cbn [snd].
  - by apply keeps_update.
  - by apply P_emit.
Qed.

Lemma keeps_delete topic reason : keeps (delete topic reason).
Proof.
  apply keeps_bind; [apply keeps_isEnabled |]. intros _ st HP.
  destruct (negb (JsMap.has (VStr topic) (sequences st))); [done |].
  revert st HP.
  apply keeps_bind; [apply keeps_getState |]. intros current.
  apply keeps_bind; [apply keeps_modify; intros st; apply P_sequences |].
  intros _. apply keeps_modify. intros st. by apply P_emit.
Qed.

Lemma keeps_forEach_set items : keeps (forEach_set items).
Proof.
  induction items as [|[s|] items IH]; simpl.
  - apply keeps_ret.
  - apply keeps_bind; [apply keeps_modify; intros st; apply P_sequences | done].
  - apply keeps_throw.
Qed.

Lemma keeps_enable : keeps enable.
Proof.
  apply keeps_bind; [apply keeps_modify; intros st; apply P_cached |].
  intros _. apply keeps_modify. intros st. by apply P_emit.
Qed.

Lemma keeps_restore_try r : keeps (restore_try r).
Proof.
  apply keeps_bind; [apply keeps_modify, P_read |]. intros _.
  destruct r as [reason | [| | items]];
    [apply keeps_throw | apply keeps_ret | apply keeps_throw |].
  destruct items as [|e items]; [apply keeps_ret |].
  intros st HP. destruct (negb (Nat.eqb (JsMap.size (sequences st)) 0)); [done |].
  revert st HP.
  apply keeps_bind; [apply keeps_modify; intros st; apply P_cached |]. intros _.
  apply keeps_bind; [apply keeps_forEach_set |]. intros _. apply keeps_enable.
Qed.

Lemma keeps_init r : keeps (init r).
Proof.
  intros st HP. unfold init, restore.
  pose proof (keeps_restore_try r st HP) as H1.
  by destruct (restore_try r st) as [[a|e|] st1].
Qed.

Lemma step_keeps (c : call) (st : State) : P st -> P (step c st).
Proof.
  destruct c; simpl.
  - apply keeps_init.
  - apply keeps_set.
  - apply keeps_get.
  - apply keeps_update.
  - apply keeps_delete.
  - apply P_settle.
Qed.

Lemma run_keeps (cs : list call) (st : State) : P st -> P (run cs st).
Proof.
  revert st. induction cs as [|c cs IH]; intros st HP; simpl; [done |].
  apply IH. by apply step_keeps.
Qed.
End StoreInduction.

(** ** Persistence follows the events *)

Lemma sync_follows_write_nil : sync_follows_write [].
Proof. intros pre post Heq. by destruct pre. Qed.

Lemma sync_follows_write_snoc tr a :
  a <> Emit Sync -> sync_follows_write tr -> sync_follows_write (tr ++ [a]).
Proof.
  intros Ha Htr pre post Heq.
  destruct post as [|x post _] using rev_ind.
  - apply app_inj_tail in Heq as [_ Heq]. congruence.
  - change (pre ++ Emit Sync :: post ++ [x])
      with (pre ++ (Emit Sync :: post) ++ [x]) in Heq.
    rewrite app_assoc in Heq. apply app_inj_tail in Heq as [Heq _].
    by apply (Htr pre post).
Qed.

Lemma sync_follows_write_settled tr key item :
  In (SetItem key item) tr ->
  sync_follows_write tr ->
  sync_follows_write ((tr ++ [Settled key item true]) ++ [Emit Sync]).
Proof.
  intros Hin Htr pre post Heq.
  destruct post as [|x post _] using rev_ind.
  - apply app_inj_tail in Heq as [<- _]. by exists tr, key, item.
  - change (pre ++ Emit Sync :: post ++ [x])
      with (pre ++ (Emit Sync :: post) ++ [x]) in Heq.
    rewrite app_assoc in Heq. apply app_inj_tail in Heq as [Heq _].
    apply (sync_follows_write_snoc tr (Settled key item true)) in Htr; [| done].
    by apply (Htr pre post).
Qed.

Lemma persist_inv_record a st :
  a <> Emit Sync -> is_publish_event a = false -> is_setItem a = false ->
  persist_inv st -> persist_inv (record a st).
Proof.
  intros Ha Hp Hs (Hsync & Hw & Hcount). split; [|split]; simpl.
  - by apply sync_follows_write_snoc.
  - intros key item Hin. apply in_or_app. left. by apply Hw.
  - rewrite !count_actions_app. unfold count_actions at 2 4. simpl.
    rewrite Hp, Hs. simpl. lia.
Qed.

Lemma emit_publish e st :
  is_publish e = true ->
  emit e st = persist (record (Emit e) st).
Proof. by destruct e. Qed.

Lemma persist_inv_emit e st : e <> Sync -> persist_inv st -> persist_inv (emit e st).
Proof.
  intros He (Hsync & Hw & Hcount).
  destruct (is_publish e) eqn:Hpub.
  - rewrite (emit_publish e st Hpub). unfold persist. split; [|split]; simpl.
    + apply sync_follows_write_snoc; [done |].
      apply sync_follows_write_snoc; [congruence | done].
    + intros key item Hin. apply in_app_or in Hin as [Hin | [[= <- <-] | []]].
      * apply in_or_app. left. apply in_or_app. left. by apply Hw.
      * apply in_or_app. right. by left.
    + rewrite !count_actions_app. unfold count_actions at 2 3 5 6. simpl.
      rewrite Hpub. simpl. lia.
  - destruct e; try discriminate; [done |].
    split; [|split]; simpl.
    + by apply sync_follows_write_snoc.
    + intros key item Hin. apply in_or_app. left. by apply Hw.
    + rewrite !count_actions_app. unfold count_actions at 2 4. simpl. lia.
Qed.

Lemma settle_effect i ok st :
  trace (settle i ok st) =
    trace st ++
    match writes st !! i with
    | Some (key, item) => Settled key item ok :: (if ok then [Emit Sync] else [])
    | None => []
    end.
Proof.
  unfold settle. destruct (writes st !! i) as [[key item]|].
  - destruct ok; simpl; by rewrite <- ?app_assoc.
  - by rewrite app_nil_r.
Qed.

Lemma persist_inv_settle i ok st : persist_inv st -> persist_inv (settle i ok st).
Proof.
  intros (Hsync & Hw & Hcount). unfold settle.
  destruct (writes st !! i) as [[key item]|] eqn:Hi; [| done].
  assert (Hin : In (SetItem key item) (trace st)).
  { apply Hw. apply list_elem_of_In. by apply (list_elem_of_lookup_2 _ i). }
  assert (Hsub : forall k v,
            In (k, v) (take i (writes st) ++ drop (S i) (writes st)) ->
            In (k, v) (writes st)).
  { intros k v Hkv. apply list_elem_of_In. apply list_elem_of_In in Hkv.
    apply elem_of_app in Hkv as [Hkv | Hkv].
    - by apply (subseteq_take i).
    - by apply (subseteq_drop (S i)). }
  destruct ok; split; try split; simpl.
  - by apply sync_follows_write_settled.
  - intros k v Hkv. apply in_or_app. left. apply in_or_app. left. eauto.
  - rewrite !count_actions_app. unfold count_actions at 2 3 5 6. simpl. lia.
  - by apply sync_follows_write_snoc.
  - intros k v Hkv. apply in_or_app. left. eauto.
  - rewrite !count_actions_app. unfold count_actions at 2 4. simpl. lia.
Qed.

Lemma persist_inv_run gen cl lg ctx cs :
  persist_inv (run cs (new_State gen cl lg ctx)).
Proof.
  apply run_keeps.
  - by intros m st.
  - by intros c st.
  - by intros n st.
  - intros st. by apply persist_inv_record.
  - apply persist_inv_emit.
  - apply persist_inv_settle.
  - split; [apply sync_follows_write_nil | by split].
Qed.

(** C6. Emitting [created], [updated] or [deleted] runs the listener that
    persists: right after the event, one [setItem] is handed to the adapter,
    under the storage key and with the values [sequences] holds at that
    moment, and nothing else happens.  [sync] is emitted by the step in which
    the adapter resolves an outstanding write, and only there: along every
    run of a store there are as many writes as such events, and every [sync]
    comes right after the adapter resolved a write handed to it earlier. *)
Theorem publish_persists_then_syncs :
  (forall (e : StateEvent) (st : State),
     is_publish e = true ->
     trace (emit e st) =
       trace st ++ [Emit e; SetItem (getStorageKey st) (values st)] /\
     writes (emit e st) = writes st ++ [(getStorageKey st, values st)] /\
     sequences (emit e st) = sequences st) /\
  (forall (i : nat) (ok : bool) (st : State),
     trace (settle i ok st) =
       trace st ++
       match writes st !! i with
       | Some (key, item) => Settled key item ok :: (if ok then [Emit Sync] else [])
       | None => []
       end) /\
  (forall (generateChildLogger : string -> string -> string)
          (owner : IClient) (parent name : string) (calls : list call),
     let tr := trace (run calls (new_State generateChildLogger owner parent name)) in
     count_actions is_publish_event tr = count_actions is_setItem tr /\
     sync_follows_write tr).
Proof.
  split; [| split].
  - intros e st Hpub. rewrite (emit_publish e st Hpub). unfold persist. simpl.
    split; [by rewrite <- app_assoc | done].
  - apply settle_effect.
  - intros gen cl lg ctx calls tr. subst tr.
    destruct (persist_inv_run gen cl lg ctx calls) as (Hsync & _ & Hcount).
    by split.
Qed.

Lemma publish_persists_then_syncs_witness :
  is_publish (Updated "t1" (spread seq_t1 patch_v2) patch_v2) = true /\
  trace (emit (Updated "t1" (spread seq_t1 patch_v2) patch_v2) restored_store) =
    trace restored_store ++
    [Emit (Updated "t1" (spread seq_t1 patch_v2) patch_v2);
     SetItem "wc@2:client//client:session" [seq_t1; seq_t2]] /\
  writes (emit (Updated "t1" (spread seq_t1 patch_v2) patch_v2) restored_store) =
    [("wc@2:client//client:session", [seq_t1; seq_t2])].
Proof.
  split; [reflexivity |].
  destruct publish_persists_then_syncs as (Hemit & _ & _).
  destruct (Hemit (Updated "t1" (spread seq_t1 patch_v2) patch_v2) restored_store)
    as (Htr & Hw & _); [reflexivity |].
  split; [exact Htr | exact Hw].
Defined.

(** ** The storage key *)

(** [slice(length - 2, length)] is the last two elements, and the whole
    array when it has fewer. *)
Lemma slice_last_two {A : Type} (l : list A) :
  slice (Z.of_nat (List.length l) - 2) (Z.of_nat (List.length l)) l = last_n 2 l.
Proof.
  unfold slice, last_n.
  destruct l as [|a [|b l]]; [reflexivity | reflexivity |].
  set (l2 := a :: b :: l).
  assert (Hlen : (2 <= Z.of_nat (List.length l2))%Z) by (subst l2; simpl; lia).
  unfold slice_index.
  destruct (Z.ltb_spec (Z.of_nat (List.length l2) - 2) 0) as [Hlt | _]; [lia |].
  destruct (Z.ltb_spec (Z.of_nat (List.length l2)) 0) as [Hlt | _]; [lia |].
  rewrite Z.min_id, Z.min_l by lia.
  replace (Z.to_nat (Z.of_nat (List.length l2) - 2)) with (List.length l2 - 2) by lia.
  apply take_ge. rewrite length_drop. lia.
Qed.

Lemma getNestedContext_last_two st :
  getNestedContext 2 st = last_n 2 (split "/" (logger st)).
Proof. unfold getNestedContext. apply slice_last_two. Qed.

Lemma append_assoc (s1 s2 s3 : string) :
  (s1 +:+ s2) +:+ s3 = s1 +:+ s2 +:+ s3.
Proof.
  induction s1 as [|c s1 IH]; [done |].
  change (String c ((s1 +:+ s2) +:+ s3) = String c (s1 +:+ s2 +:+ s3)).
  f_equal. exact IH.
Qed.

Lemma key_inv_emit key e st : key_inv key st -> key_inv key (emit e st).
Proof.
  intros (Hkey & Htr & Hw).
  assert (Hrec : Forall (uses_key key) (trace st ++ [Emit e])).
  { apply Forall_app. split; [done |]. by constructor. }
  destruct e; (split; [exact Hkey |]); simpl; try (by split);
    (split;
     [ apply Forall_app; split; [exact Hrec | by constructor]
     | apply Forall_app; split; [exact Hw | by constructor] ]).
Qed.

Lemma key_inv_settle key i ok st : key_inv key st -> key_inv key (settle i ok st).
Proof.
  intros (Hkey & Htr & Hw). unfold settle.
  destruct (writes st !! i) as [[k item]|] eqn:Hi; [| done].
  assert (Hk : k = key).
  { rewrite Forall_lookup in Hw. exact (Hw i (k, item) Hi). }
  assert (Hw' : Forall (fun w => fst w = key)
                  (take i (writes st) ++ drop (S i) (writes st))).
  { apply Forall_app. split; [by apply Forall_take | by apply Forall_drop]. }
  assert (Hrec : Forall (uses_key key) (trace st ++ [Settled k item ok])).
  { apply Forall_app. split; [done |]. by constructor. }
  destruct ok; (split; [exact Hkey |]); simpl; split; try done.
  apply Forall_app. split; [exact Hrec | by constructor].
Qed.

Lemma key_inv_run key cs st : key_inv key st -> key_inv key (run cs st).
Proof.
  apply (run_keeps (key_inv key)).
  - by intros m st0.
  - by intros c st0.
  - by intros n st0.
  - intros st0 (Hkey & Htr & Hw). split; [exact Hkey |]. split; [| done].
    simpl. apply Forall_app. split; [done |]. by constructor.
  - intros e st0 _. apply key_inv_emit.
  - apply key_inv_settle.
Qed.

(** C8. The storage key of a store is
    [protocol@version:context//a:b], where [protocol], [version] and
    [context] are those of the owning client and [a:b] joins with [:] the
    nested context of the store, the last two [/]-separated segments of the
    context of its logger.  No call changes the key, and every [getItem]
    and [setItem] of every run of the store goes to it: the whole map has
    one slot. *)
Theorem storage_key_single_slot
    (generateChildLogger : string -> string -> string)
    (owner : IClient) (parent name : string) (calls : list call) :
  let st := new_State generateChildLogger owner parent name in
  getStorageKey st =
    protocol owner +:+ "@" +:+ version owner +:+ ":" +:+ context owner +:+
    "//" +:+ join ":" (getNestedContext 2 st) /\
  getNestedContext 2 st = last_n 2 (split "/" (generateChildLogger parent name)) /\
  getStorageKey (run calls st) = getStorageKey st /\
  Forall (uses_key (getStorageKey st)) (trace (run calls st)).
Proof.
  intros st. split; [unfold getStorageKey; by rewrite !append_assoc |].
  split; [apply getNestedContext_last_two |].
  destruct (key_inv_run (getStorageKey st) calls st) as (Hkey & Htr & _);
    [by split | by split].
Qed.

(** ** The gate along a run *)

Lemma cached_emit e st : cached (emit e st) = cached st.
Proof. by destruct e. Qed.

Lemma cached_settle i ok st : cached (settle i ok st) = cached st.
Proof.
  unfold settle. destruct (writes st !! i) as [[key item]|]; [| done].
  by destruct ok.
Qed.

Lemma well_typed_objects (items : list entry) :
  forallb (fun e => match e with Some _ => true | None => false end) items = true ->
  exists objects : list Sequence, items = List.map Some objects.
Proof.
  induction items as [|[s|] items IH]; simpl; intros Hall.
  - by exists [].
  - destruct (IH Hall) as [objects ->]. by exists (s :: objects).
  - discriminate.
Qed.

Lemma init_gate_open (r : read_result) (st : State) :
  well_typed r = true -> cached st = [] -> cached (snd (init r st)) = [].
Proof.
  intros Hwt Hc. destruct r as [reason | [| | items]]; try done.
  simpl in Hwt. destruct (well_typed_objects items Hwt) as [objects ->].
  destruct objects as [|s objects]; [done |].
  destruct (sequences st) as [|kv m] eqn:Hseq.
  - unfold init, restore. by rewrite restore_objects.
  - rewrite (init_conflict (List.map Some (s :: objects)) st);
      [done | done | by rewrite Hseq].
Qed.

Lemma step_gate_open (c : call) (st : State) :
  well_typed_call c = true -> cached st = [] -> cached (step c st) = [].
Proof.
  intros Hwt Hc. destruct c as [r | topic s | topic | topic u | topic reason | i ok];
    cbn [step].
  - by apply init_gate_open.
  - unfold set, bind. rewrite (isEnabled_open st Hc).
    destruct (JsMap.get (VStr topic) (sequences st)) as [current|] eqn:Hg.
    + unfold JsMap.has. rewrite Hg.
      rewrite (update_present topic current s st Hc Hg). cbn [snd].
      by rewrite cached_emit.
    + unfold JsMap.has. rewrite Hg. cbn [snd]. by rewrite cached_emit.
  - destruct (JsMap.get (VStr topic) (sequences st)) as [current|] eqn:Hg.
    + unfold get, bind. rewrite (isEnabled_open st Hc).
      by rewrite (getState_present topic current st Hc Hg).
    + rewrite get_absent; [done | done | by apply has_false_get].
  - destruct (JsMap.get (VStr topic) (sequences st)) as [current|] eqn:Hg.
    + rewrite (update_present topic current u st Hc Hg). cbn [snd].
      by rewrite cached_emit.
    + rewrite update_absent; [done | done | by apply has_false_get].
  - destruct (JsMap.get (VStr topic) (sequences st)) as [current|] eqn:Hg.
    + rewrite (delete_present topic current reason st Hc Hg). cbn [snd].
      by rewrite cached_emit.
    + rewrite delete_absent; [done | done | by apply has_false_get].
  - by rewrite cached_settle.
Qed.

(** While the adapter keeps to its type, the gate is open whenever a call
    has settled: a store that is constructed and then used one call after
    the other never parks a call. *)
Lemma run_gate_open gen cl lg ctx (cs : list call) :
  forallb well_typed_call cs = true ->
  cached (run cs (new_State gen cl lg ctx)) = [].
Proof.
  assert (Hgen : forall st, cached st = [] ->
            forallb well_typed_call cs = true -> cached (run cs st) = []).
  { induction cs as [|c cs IH]; intros st Hc Hall; simpl in *; [done |].
    apply andb_prop in Hall as [Hwt Hall].
    apply IH; [by apply step_gate_open | done]. }
  intros Hall. by apply Hgen.
Qed.

(** * Further properties of the store *)

(** ** More on the JS [Map] *)

Section JsMapMore.
Context {K V : Type} `{EqDecision K}.
Implicit Types (k : K) (v : V) (m : list (K * V)).

Lemma set_set k v v' m : JsMap.set k v' (JsMap.set k v m) = JsMap.set k v' m.
Proof.
  induction m as [|[k0 v0] m IH]; simpl.
  - by rewrite decide_True.
  - destruct (decide (k = k0)) as [->|Hne]; simpl.
    + by rewrite decide_True.
    + rewrite decide_False by done. by rewrite IH.
Qed.

Lemma set_same k v m : JsMap.get k m = Some v -> JsMap.set k v m = m.
Proof.
  induction m as [|[k0 v0] m IH]; simpl; [done |].
  destruct (decide (k = k0)) as [->|Hne].
  - by intros [= ->].
  - intros Hg. by rewrite IH.
Qed.

Lemma keys_set k v m :
  JsMap.keys (JsMap.set k v m) =
    if JsMap.has k m then JsMap.keys m else JsMap.keys m ++ [k].
Proof.
  unfold JsMap.has. induction m as [|[k0 v0] m IH]; simpl; [done |].
  destruct (decide (k = k0)) as [->|Hne]; simpl; [done |].
  rewrite IH. by destruct (JsMap.get k m).
Qed.

Lemma keys_delete k m :
  JsMap.keys (JsMap.delete k m) = List.filter (fun k' => bool_decide (k' <> k)) (JsMap.keys m).
Proof.
  induction m as [|[k0 v0] m IH]; simpl; [done |].
  destruct (decide (k = k0)) as [->|Hne]; simpl.
  - rewrite bool_decide_false by (intros Hx; by apply Hx). exact IH.
  - rewrite bool_decide_true by congruence. simpl. by rewrite IH.
Qed.

Lemma NoDup_keys_set k v m : NoDup (JsMap.keys m) -> NoDup (JsMap.keys (JsMap.set k v m)).
Proof.
  intros Hnd. rewrite keys_set. destruct (JsMap.has k m) eqn:Hh; [done |].
  apply NoDup_app. split; [done |]. split; [| apply NoDup_singleton].
  intros x Hx Hin. apply list_elem_of_singleton in Hin as ->.
  apply has_false_get in Hh. by apply get_None_keys in Hh.
Qed.

Lemma NoDup_keys_delete k m : NoDup (JsMap.keys m) -> NoDup (JsMap.keys (JsMap.delete k m)).
Proof.
  intros Hnd. rewrite keys_delete. apply NoDup_ListNoDup.
  apply List.NoDup_filter. by apply NoDup_ListNoDup.
Qed.

Lemma size_delete_present k m :
  NoDup (JsMap.keys m) -> JsMap.has k m = true ->
  S (JsMap.size (JsMap.delete k m)) = JsMap.size m.
Proof.
  unfold JsMap.has, JsMap.size.
  induction m as [|[k0 v0] m IH]; simpl; [done |].
  intros Hnd Hh. apply NoDup_cons in Hnd as [Hnin Hnd].
  destruct (decide (k = k0)) as [->|Hne]; simpl.
  - f_equal. clear IH Hh Hnd. induction m as [|[k1 v1] m IHm]; simpl; [done |].
    simpl in Hnin. apply not_elem_of_cons in Hnin as [Hne Hnin].
    rewrite decide_False by done. simpl. by rewrite IHm.
  - f_equal. by apply IH.
Qed.
End JsMapMore.

(** ** [set] on a topic the store holds *)



(** ** [delete] on a topic the store holds *)

(** X2. With the gate open, [delete] on a topic the store holds resolves,
    removes the entry, and emits [deleted] with the record it removed and
    the reason given; the write that follows carries the values that are
    left.  After it [get] on the topic rejects with [NoMatchingTopic], and a
    second [delete] resolves and changes nothing. *)
Theorem delete_known_topic
    (st : State) (topic : string) (current : Sequence) (reason reason' : Reason) :
  cached st = [] ->
  JsMap.get (VStr topic) (sequences st) = Some current ->
  let st' := snd (delete topic reason st) in
  fst (delete topic reason st) = Returned tt /\
  sequences st' = JsMap.delete (VStr topic) (sequences st) /\
  trace st' =
    trace st ++ [Emit (Deleted topic current reason);
                 SetItem (getStorageKey st) (values st')] /\
  get topic st' = (Threw (NoMatchingTopic (getStateContext st) topic), st') /\
  delete topic reason' st' = (Returned tt, st').
Proof.
  intros Hc Hg st'. subst st'.
  rewrite (delete_present topic current reason st Hc Hg). cbn [fst snd].
  set (st1 := emit (Deleted topic current reason)
                (with_sequences (JsMap.delete (VStr topic) (sequences st)) st)).
  assert (Hc1 : cached st1 = []) by exact Hc.
  assert (Hh1 : JsMap.has (VStr topic) (sequences st1) = false).
  { apply has_false_get. subst st1. simpl. apply get_delete_eq. }
  split; [done |]. split; [done |].
  split. { subst st1. simpl. by rewrite <- app_assoc. }
  split.
  - exact (get_absent topic st1 Hc1 Hh1).
  - exact (delete_absent topic reason' st1 Hc1 Hh1).
Qed.

Lemma delete_known_topic_witness :
  cached restored_store = [] /\
  JsMap.get (VStr "t1") (sequences restored_store) = Some seq_t1 /\
  sequences (snd (delete "t1" reason_done restored_store)) = [(VStr "t2", seq_t2)] /\
  trace (snd (delete "t1" reason_done restored_store)) =
    trace restored_store ++
    [Emit (Deleted "t1" seq_t1 reason_done);
     SetItem "wc@2:client//client:session" [seq_t2]] /\
  fst (get "t1" (snd (delete "t1" reason_done restored_store))) =
    Threw (NoMatchingTopic "client session" "t1").
Proof.
  split; [reflexivity |]. split; [reflexivity |].
  destruct (delete_known_topic restored_store "t1" seq_t1 reason_done reason_done)
    as (_ & Hseq & Htr & Hget & _); [reflexivity | reflexivity |].
  split; [rewrite Hseq; reflexivity |].
  split; [rewrite Htr; reflexivity |].
  rewrite Hget. reflexivity.
Defined.

(** ** [update], then *)

(** X3. With the gate open and the topic held, the [get] that follows an
    [update] returns the merged record, and the [update] moved no entry: the
    topics, their order and their number are as before. *)
Theorem update_then_get
    (st : State) (topic : string) (current : Sequence) (u : Patch) :
  cached st = [] ->
  JsMap.get (VStr topic) (sequences st) = Some current ->
  let st' := snd (update topic u st) in
  get topic st' = (Returned (spread current u), st') /\
  topics st' = topics st /\
  length st' = length st.
Proof.
  intros Hc Hg st'. subst st'.
  rewrite (update_present topic current u st Hc Hg). cbn [snd].
  set (st1 := emit (Updated topic (spread current u) u)
                (with_sequences (JsMap.set (VStr topic) (spread current u) (sequences st)) st)).
  assert (Hc1 : cached st1 = []) by exact Hc.
  assert (Hg1 : JsMap.get (VStr topic) (sequences st1) = Some (spread current u)).
  { subst st1. simpl. apply get_set_eq. }
  assert (Hkeys : topics st1 = topics st).
  { subst st1. unfold topics. simpl. apply keys_set_present.
    unfold JsMap.has. by rewrite Hg. }
  split; [| split; [exact Hkeys |]].
  - unfold get, bind. rewrite (isEnabled_open st1 Hc1).
    by rewrite (getState_present topic (spread current u) st1 Hc1 Hg1).
  - unfold length, JsMap.size. unfold topics, JsMap.keys in Hkeys.
    rewrite <- (length_map fst (sequences st1)), Hkeys. apply length_map.
Qed.

Lemma update_then_get_witness :
  cached restored_store = [] /\
  JsMap.get (VStr "t1") (sequences restored_store) = Some seq_t1 /\
  fst (get "t1" (snd (update "t1" patch_v2 restored_store))) =
    Returned (spread seq_t1 patch_v2) /\
  topics (snd (update "t1" patch_v2 restored_store)) = [VStr "t1"; VStr "t2"].
Proof.
  split; [reflexivity |]. split; [reflexivity |].
  destruct (update_then_get restored_store "t1" seq_t1 patch_v2)
    as (Hget & Htop & _); [reflexivity | reflexivity |].
  split; [rewrite Hget; reflexivity | rewrite Htop; reflexivity].
Defined.

Lemma spread_spread (current : Sequence) (u1 u2 : Patch) :
  spread (spread current u1) u2 = spread current (spread u1 u2).
Proof. unfold spread. by rewrite (assoc_L (∪)). Qed.

Lemma spread_empty (current : Sequence) : spread current ∅ = current.
Proof. unfold spread. by rewrite (left_id_L ∅ (∪)). Qed.

(** X4. Two updates of a topic leave the map one update with the spread of
    the two patches leaves: the later patch wins field by field, and a field
    only the earlier patch names is kept. *)
Theorem update_update_compose
    (st : State) (topic : string) (current : Sequence) (u1 u2 : Patch) :
  cached st = [] ->
  JsMap.get (VStr topic) (sequences st) = Some current ->
  fst (update topic u2 (snd (update topic u1 st))) = Returned tt /\
  sequences (snd (update topic u2 (snd (update topic u1 st)))) =
    sequences (snd (update topic (spread u1 u2) st)).
Proof.
  intros Hc Hg.
  rewrite (update_present topic current u1 st Hc Hg). cbn [snd].
  set (st1 := emit (Updated topic (spread current u1) u1)
                (with_sequences (JsMap.set (VStr topic) (spread current u1) (sequences st)) st)).
  assert (Hc1 : cached st1 = []) by exact Hc.
  assert (Hg1 : JsMap.get (VStr topic) (sequences st1) = Some (spread current u1)).
  { subst st1. simpl. apply get_set_eq. }
  rewrite (update_present topic (spread current u1) u2 st1 Hc1 Hg1).
  rewrite (update_present topic current (spread u1 u2) st Hc Hg).
  split; [done |]. subst st1. simpl.
  by rewrite set_set, spread_spread.
Qed.

Lemma update_update_compose_witness :
  cached restored_store = [] /\
  JsMap.get (VStr "t1") (sequences restored_store) = Some seq_t1 /\
  sequences (snd (update "t1" patch_w (snd (update "t1" patch_v2 restored_store)))) =
    sequences (snd (update "t1" (spread patch_v2 patch_w) restored_store)).
Proof.
  split; [reflexivity |]. split; [reflexivity |].
  apply (update_update_compose restored_store "t1" seq_t1 patch_v2 patch_w);
    reflexivity.
Defined.

(** X5. An empty patch changes no record, and still counts as an update:
    [updated] is emitted with the record as it was and the whole snapshot is
    written again. *)
Theorem update_empty_patch
    (st : State) (topic : string) (current : Sequence) :
  cached st = [] ->
  JsMap.get (VStr topic) (sequences st) = Some current ->
  let st' := snd (update topic ∅ st) in
  fst (update topic ∅ st) = Returned tt /\
  sequences st' = sequences st /\
  trace st' =
    trace st ++ [Emit (Updated topic current ∅); SetItem (getStorageKey st) (values st)] /\
  writes st' = writes st ++ [(getStorageKey st, values st)].
Proof.
  intros Hc Hg st'. subst st'.
  rewrite (update_present topic current ∅ st Hc Hg). cbn [fst snd].
  rewrite spread_empty, (set_same _ _ _ Hg), with_sequences_id.
  split; [done |]. split; [done |]. split; [| done].
  simpl. by rewrite <- app_assoc.
Qed.

Lemma update_empty_patch_witness :
  cached restored_store = [] /\
  JsMap.get (VStr "t2") (sequences restored_store) = Some seq_t2 /\
  sequences (snd (update "t2" ∅ restored_store)) = sequences restored_store /\
  writes (snd (update "t2" ∅ restored_store)) =
    [("wc@2:client//client:session", [seq_t1; seq_t2])].
Proof.
  split; [reflexivity |]. split; [reflexivity |].
  destruct (update_empty_patch restored_store "t2" seq_t2)
    as (_ & Hseq & _ & Hw); [reflexivity | reflexivity |].
  split; [exact Hseq | exact Hw].
Defined.

(** ** What the calls never do *)

(** X6. [get] reads and does nothing else, in every state of the store: the
    map, the gate, the events emitted and the writes handed to the adapter
    are as before, whether it returns, rejects or parks. *)
Theorem get_reads_only (st : State) (topic : string) :
  sequences (snd (get topic st)) = sequences st /\
  cached (snd (get topic st)) = cached st /\
  trace (snd (get topic st)) = trace st /\
  writes (snd (get topic st)) = writes st.
Proof.
  destruct (decide (cached st = [])) as [Hc|Hc].
  - destruct (JsMap.get (VStr topic) (sequences st)) as [current|] eqn:Hg.
    + unfold get, bind. rewrite (isEnabled_open st Hc).
      by rewrite (getState_present topic current st Hc Hg).
    + rewrite get_absent; [done | done | by apply has_false_get].
  - unfold get, bind. by rewrite (isEnabled_closed st Hc).
Qed.

Lemma set_parked topic sequence st :
  cached st <> [] ->
  set topic sequence st = (Parked, with_parked (S (parked st)) st).
Proof. intros Hc. unfold set, bind. by rewrite (isEnabled_closed st Hc). Qed.

Lemma get_parked topic st :
  cached st <> [] ->
  get topic st = (Parked, with_parked (S (parked st)) st).
Proof. intros Hc. unfold get, bind. by rewrite (isEnabled_closed st Hc). Qed.

Lemma delete_parked topic reason st :
  cached st <> [] ->
  delete topic reason st = (Parked, with_parked (S (parked st)) st).
Proof. intros Hc. unfold delete, bind. by rewrite (isEnabled_closed st Hc). Qed.

(** ** A closed gate *)

Lemma step_closed_gate (c : call) (st : State) :
  cached st <> [] -> is_method_call c = true ->
  step c st = with_parked (S (parked st)) st.
Proof.
  intros Hc Hm. destruct c as [r | topic s | topic | topic u | topic reason | i ok];
    try discriminate; cbn [step].
  - by rewrite set_parked.
  - by rewrite get_parked.
  - by rewrite update_parked.
  - by rewrite delete_parked.
Qed.

Lemma run_parked (cs : list call) (st : State) :
  cached st <> [] ->
  forallb is_method_call cs = true ->
  run cs st = with_parked (parked st + List.length cs) st.
Proof.
  revert st. induction cs as [|c cs IH]; intros st Hc Hall; simpl in *.
  - replace (parked st + 0) with (parked st) by lia. by destruct st.
  - apply andb_prop in Hall as [Hm Hall].
    rewrite (step_closed_gate c st Hc Hm).
    rewrite IH; [| exact Hc | exact Hall].
    unfold with_parked. simpl. f_equal. lia.
Qed.

(** X7. No gated call opens a closed gate.  On a store whose [cached] is not
    empty, every call of a run of [set], [get], [update] and [delete] parks
    on its first line: at the end the map, the trace, the writes and
    [cached] are what they were, one listener of [enabled] was left per
    call, and the next call of each of the four parks as well. *)
Theorem closed_gate_stays_closed
    (cs : list call) (st : State)
    (topic : string) (sequence : Sequence) (u : Patch) (reason : Reason) :
  cached st <> [] ->
  forallb is_method_call cs = true ->
  sequences (run cs st) = sequences st /\
  trace (run cs st) = trace st /\
  writes (run cs st) = writes st /\
  cached (run cs st) = cached st /\
  parked (run cs st) = parked st + List.length cs /\
  fst (set topic sequence (run cs st)) = Parked /\
  fst (get topic (run cs st)) = Parked /\
  fst (update topic u (run cs st)) = Parked /\
  fst (delete topic reason (run cs st)) = Parked.
Proof.
  intros Hc Hall. rewrite (run_parked cs st Hc Hall).
  set (st1 := with_parked _ st).
  assert (Hc1 : cached st1 <> []) by exact Hc.
  repeat (split; [reflexivity |]).
  rewrite (set_parked topic sequence st1 Hc1), (get_parked topic st1 Hc1),
    (update_parked topic u st1 Hc1), (delete_parked topic reason st1 Hc1).
  repeat split.
Qed.

Lemma closed_gate_stays_closed_witness :
  cached stalled_store <> [] /\
  sequences (run [CallGet "t1"; CallUpdate "t1" patch_v2; CallDelete "t1" reason_done]
               stalled_store) = [(VStr "t1", seq_t1)] /\
  parked (run [CallGet "t1"; CallUpdate "t1" patch_v2; CallDelete "t1" reason_done]
            stalled_store) = 3 /\
  fst (get "t1" (run [CallGet "t1"; CallUpdate "t1" patch_v2; CallDelete "t1" reason_done]
                   stalled_store)) = Parked.
Proof.
  split; [discriminate |].
  destruct (closed_gate_stays_closed
              [CallGet "t1"; CallUpdate "t1" patch_v2; CallDelete "t1" reason_done]
              stalled_store "t1" seq_t2 patch_v2 reason_done)
    as (Hseq & _ & _ & _ & Hp & _ & Hget & _); [discriminate | reflexivity |].
  split; [rewrite Hseq; reflexivity |]. split; [rewrite Hp; reflexivity | exact Hget].
Defined.

Lemma init_null_entry_state (good : list Sequence) (rest : list entry) (st : State) :
  sequences st = [] ->
  init (ReadResolves (PArray (List.map Some good ++ None :: rest))) st =
    (Returned tt,
     with_sequences
       (fold_left (fun m s => JsMap.set (topic_of s) s m) good [])
       (with_cached (List.map Some good ++ None :: rest)
          (record (GetItem (getStorageKey st)) st))).
Proof.
  intros Hempty. unfold init, restore.
  rewrite restore_try_fresh; [| by destruct good | done].
  unfold bind at 1. unfold modify at 1. unfold bind at 1.
  rewrite forEach_set_null_entry. simpl sequences. by rewrite Hempty.
Qed.

(** X8. A snapshot with a [null] entry stalls the store.  [init] on an empty
    store resolves with the records before the entry in the map, with no
    [enabled] emitted and with [cached] still holding the snapshot; from
    then on, whatever gated calls are made, the map and the trace never
    change and the next [get] parks. *)
Theorem null_entry_stalls_store
    (good : list Sequence) (rest : list entry) (st : State) (cs : list call)
    (topic : string) :
  sequences st = [] ->
  forallb is_method_call cs = true ->
  let st' := snd (init (ReadResolves (PArray (List.map Some good ++ None :: rest))) st) in
  fst (init (ReadResolves (PArray (List.map Some good ++ None :: rest))) st) = Returned tt /\
  sequences (run cs st') = fold_left (fun m s => JsMap.set (topic_of s) s m) good [] /\
  trace (run cs st') = trace st ++ [GetItem (getStorageKey st)] /\
  cached (run cs st') = List.map Some good ++ None :: rest /\
  fst (get topic (run cs st')) = Parked.
Proof.
  intros Hempty Hall st'. subst st'.
  rewrite (init_null_entry_state good rest st Hempty). cbn [fst snd].
  set (st1 := with_sequences _ _).
  assert (Hc : cached st1 <> []) by (subst st1; simpl; by destruct good).
  rewrite (run_parked cs st1 Hc Hall).
  split; [done |]. split; [done |]. split; [done |]. split; [done |].
  rewrite get_parked; [done | exact Hc].
Qed.

Lemma null_entry_stalls_store_witness :
  sequences sample_store = [] /\
  sequences (run [CallSet "t3" seq_t2; CallDelete "t1" reason_done] stalled_store) =
    [(VStr "t1", seq_t1)] /\
  trace (run [CallSet "t3" seq_t2; CallDelete "t1" reason_done] stalled_store) =
    [GetItem "wc@2:client//client:session"] /\
  fst (get "t1" (run [CallSet "t3" seq_t2; CallDelete "t1" reason_done] stalled_store)) =
    Parked.
Proof.
  split; [reflexivity |].
  destruct (null_entry_stalls_store [seq_t1] [Some seq_t2] sample_store
              [CallSet "t3" seq_t2; CallDelete "t1" reason_done] "t1")
    as (_ & Hseq & Htr & _ & Hget); [reflexivity | reflexivity |].
  split; [exact Hseq |]. split; [exact Htr | exact Hget].
Defined.

(** ** [init] on a store that holds records *)

Lemma init_populated (r : read_result) (st : State) :
  sequences st <> [] ->
  init r st = (Returned tt, record (GetItem (getStorageKey st)) st).
Proof.
  intros Hseq. destruct r as [reason | [| | items]]; try reflexivity.
  destruct items as [|e items]; [reflexivity |]. by apply init_conflict.
Qed.

(** X9. [init] never touches a store that holds a record, whatever the
    adapter answers (a rejected read, [undefined], [null], an empty array, a
    snapshot, well formed or not): it resolves, the map, the gate and the
    writes are as they were, and the trace gained the read and no
    [enabled]. *)
Theorem init_populated_store (r : read_result) (st : State) :
  sequences st <> [] ->
  fst (init r st) = Returned tt /\
  sequences (snd (init r st)) = sequences st /\
  cached (snd (init r st)) = cached st /\
  writes (snd (init r st)) = writes st /\
  trace (snd (init r st)) = trace st ++ [GetItem (getStorageKey st)] /\
  count_actions is_enabled_event (trace (snd (init r st))) =
    count_actions is_enabled_event (trace st).
Proof.
  intros Hseq. rewrite (init_populated r st Hseq). cbn [fst snd].
  repeat (split; [reflexivity |]).
  simpl. rewrite count_actions_app. unfold count_actions at 2. simpl. lia.
Qed.

Lemma init_populated_store_witness :
  sequences restored_store <> [] /\
  fst (init (ReadResolves PNull) restored_store) = Returned tt /\
  sequences (snd (init (ReadResolves PNull) restored_store)) =
    [(VStr "t1", seq_t1); (VStr "t2", seq_t2)].
Proof.
  split; [discriminate |].
  destruct (init_populated_store (ReadResolves PNull) restored_store)
    as (Hret & Hseq & _); [discriminate |].
  split; [exact Hret | rewrite Hseq; reflexivity].
Defined.

Lemma fold_set_nonempty (items : list Sequence) (m : list (value * Sequence)) :
  items <> [] \/ m <> [] ->
  fold_left (fun m s => JsMap.set (topic_of s) s m) items m <> [].
Proof.
  revert m. induction items as [|s items IH]; intros m Hne; simpl.
  - by destruct Hne.
  - apply IH. right. by destruct m as [|[k v] m]; simpl; [| destruct (decide _)].
Qed.

(** X10. A restore is not repeated by the next [init]: right after an [init]
    that took a snapshot of at least one record into an empty store, a
    second [init] resolves and leaves the store as the first left it, but
    for the read in the trace, whatever the adapter answers then. *)
Theorem init_twice
    (items : list Sequence) (r : read_result) (st : State) :
  items <> [] ->
  sequences st = [] ->
  let st1 := snd (init (ReadResolves (PArray (List.map Some items))) st) in
  init r st1 = (Returned tt, record (GetItem (getStorageKey st)) st1).
Proof.
  intros Hne Hempty st1.
  assert (Hseq : sequences st1 <> []).
  { subst st1. unfold init, restore.
    rewrite (restore_objects items st Hne Hempty). simpl.
    apply fold_set_nonempty. by left. }
  assert (Hkey : getStorageKey st1 = getStorageKey st).
  { subst st1. unfold init, restore.
    by rewrite (restore_objects items st Hne Hempty). }
  rewrite <- Hkey. by apply init_populated.
Qed.

Lemma init_twice_witness :
  [seq_t1; seq_t2] <> [] /\
  sequences sample_store = [] /\
  init (ReadResolves (PArray [Some seq_t1'])) restored_store =
    (Returned tt, record (GetItem "wc@2:client//client:session") restored_store).
Proof.
  split; [discriminate |]. split; [reflexivity |].
  apply (init_twice [seq_t1; seq_t2] (ReadResolves (PArray [Some seq_t1'])) sample_store);
    [discriminate | reflexivity].
Defined.

(** ** What a restore leaves in the map *)

Lemma get_set k k' (v : Sequence) (m : list (value * Sequence)) :
  JsMap.get k' (JsMap.set k v m) = if decide (k = k') then Some v else JsMap.get k' m.
Proof.
  destruct (decide (k = k')) as [->|Hne]; [apply get_set_eq | by apply get_set_ne].
Qed.

Lemma find_app_last {A : Type} (p : A -> bool) (l l' : list A) :
  List.find p (l ++ l') =
    match List.find p l with Some x => Some x | None => List.find p l' end.
Proof. induction l as [|a l IH]; simpl; [done |]. by destruct (p a). Qed.

Lemma get_fold_set (items : list Sequence) (m : list (value * Sequence)) (k : value) :
  JsMap.get k (fold_left (fun m s => JsMap.set (topic_of s) s m) items m) =
    match last_with_topic k items with
    | Some s => Some s
    | None => JsMap.get k m
    end.
Proof.
  revert m. induction items as [|s items IH]; intros m; simpl; [done |].
  rewrite IH. unfold last_with_topic. simpl. rewrite find_app_last.
  destruct (List.find _ (rev items)) as [s'|]; [done |].
  rewrite get_set. simpl. destruct (decide (topic_of s = k)) as [Heq|Hne].
  - by rewrite bool_decide_true.
  - by rewrite bool_decide_false.
Qed.

(** X11. After [init] took a snapshot of at least one record into an empty
    store, the map holds under each key the last record of the snapshot
    whose [topic] field is that key, and nothing under any other key: where
    two records share a topic the later one wins, and [get] returns exactly
    that record. *)
Theorem restore_later_record_wins
    (items : list Sequence) (st : State) (topic : string) :
  items <> [] ->
  sequences st = [] ->
  cached st = [] ->
  let st' := snd (init (ReadResolves (PArray (List.map Some items))) st) in
  (forall k : value, JsMap.get k (sequences st') = last_with_topic k items) /\
  get topic st' =
    match last_with_topic (VStr topic) items with
    | Some s => (Returned s, st')
    | None => (Threw (NoMatchingTopic (getStateContext st) topic), st')
    end.
Proof.
  intros Hne Hempty Hc st'.
  assert (Hst' : st' = emit Enabled
            (with_cached []
               (with_sequences
                  (fold_left (fun m s => JsMap.set (topic_of s) s m) items [])
                  (with_cached (List.map Some items)
                     (record (GetItem (getStorageKey st)) st))))).
  { subst st'. unfold init, restore. by rewrite (restore_objects items st Hne Hempty). }
  assert (Hlook : forall k, JsMap.get k (sequences st') = last_with_topic k items).
  { intros k. rewrite Hst'. simpl. rewrite get_fold_set.
    by destruct (last_with_topic k items). }
  assert (Hc' : cached st' = []) by (by rewrite Hst').
  split; [exact Hlook |].
  specialize (Hlook (VStr topic)).
  destruct (last_with_topic (VStr topic) items) as [s|].
  - unfold get, bind. rewrite (isEnabled_open st' Hc').
    by rewrite (getState_present topic s st' Hc' Hlook).
  - assert (Hctx : getStateContext st = getStateContext st') by (by rewrite Hst').
    rewrite Hctx. apply get_absent; [done | by apply has_false_get].
Qed.

Lemma restore_later_record_wins_witness :
  [seq_t1; seq_t2; seq_t1'] <> [] /\
  sequences sample_store = [] /\
  cached sample_store = [] /\
  fst (get "t1" (snd (init (ReadResolves (PArray [Some seq_t1; Some seq_t2; Some seq_t1']))
                        sample_store))) = Returned seq_t1'.
Proof.
  split; [discriminate |]. split; [reflexivity |]. split; [reflexivity |].
  destruct (restore_later_record_wins [seq_t1; seq_t2; seq_t1'] sample_store "t1")
    as (_ & Hget); [discriminate | reflexivity | reflexivity |].
  exact (f_equal fst Hget).
Defined.

Lemma keyed_topics (m : list (value * Sequence)) :
  keyed_by_topic m -> List.map topic_of (JsMap.values m) = JsMap.keys m.
Proof.
  unfold keyed_by_topic. induction m as [|[k s] m IH]; simpl; [done |].
  intros Hk. apply Forall_cons in Hk as [Hks Hk]. simpl in Hks.
  by rewrite Hks, IH.
Qed.

Lemma keyed_pairs (m : list (value * Sequence)) :
  keyed_by_topic m -> List.map (fun s => (topic_of s, s)) (JsMap.values m) = m.
Proof.
  unfold keyed_by_topic. induction m as [|[k s] m IH]; simpl; [done |].
  intros Hk. apply Forall_cons in Hk as [Hks Hk]. simpl in Hks.
  by rewrite Hks, IH.
Qed.

(** X12. What one store persists another restores: when the map of [st]
    holds at least one record, holds no key twice, and holds every record
    under its own [topic] field, an [init] of an empty store that reads the
    values [st] writes ends with the map of [st], entry by entry and in the
    same order. *)
Theorem persist_restore_round_trip (st fresh : State) :
  sequences st <> [] ->
  NoDup (topics st) ->
  keyed_by_topic (sequences st) ->
  sequences fresh = [] ->
  sequences (snd (init (ReadResolves (PArray (List.map Some (values st)))) fresh)) =
    sequences st /\
  values (snd (init (ReadResolves (PArray (List.map Some (values st)))) fresh)) =
    values st.
Proof.
  intros Hne Hnd Hkeyed Hempty.
  assert (Hvals : values st <> []).
  { unfold values, JsMap.values. by destruct (sequences st). }
  assert (Htopics : List.map topic_of (values st) = topics st)
    by (by apply keyed_topics).
  assert (Hpairs : List.map (fun s => (topic_of s, s)) (values st) = sequences st)
    by (by apply keyed_pairs).
  assert (Hseq : sequences (snd (init (ReadResolves (PArray (List.map Some (values st)))) fresh)) =
                 sequences st).
  { unfold init, restore. rewrite (restore_objects (values st) fresh Hvals Hempty).
    simpl. rewrite (fold_set_distinct (values st) []).
    - exact Hpairs.
    - simpl. by rewrite Htopics. }
  split; [exact Hseq |]. unfold values at 1. by rewrite Hseq.
Qed.

Lemma persist_restore_round_trip_witness :
  sequences restored_store <> [] /\
  NoDup (topics restored_store) /\
  keyed_by_topic (sequences restored_store) /\
  sequences sample_store = [] /\
  sequences (snd (init (ReadResolves (PArray (List.map Some (values restored_store))))
                   sample_store)) = sequences restored_store.
Proof.
  assert (Hnd : NoDup (topics restored_store)) by compute_done.
  assert (Hkeyed : keyed_by_topic (sequences restored_store)).
  { repeat constructor. }
  split; [discriminate |]. split; [exact Hnd |]. split; [exact Hkeyed |].
  split; [reflexivity |].
  apply (persist_restore_round_trip restored_store sample_store);
    [discriminate | exact Hnd | exact Hkeyed | reflexivity].
Defined.

(** ** Induction over the map of a store *)

Lemma sequences_emit e st : sequences (emit e st) = sequences st.
Proof. by destruct e. Qed.

Lemma sequences_settle i ok st : sequences (settle i ok st) = sequences st.
Proof.
  unfold settle. destruct (writes st !! i) as [[key item]|]; [| done].
  by destruct ok.
Qed.

(** The store changes its map by [Map.set] and [Map.delete] only: a property
    of the map that those two keep is kept by every call and every run. *)
Section MapInduction.
Variable Q : list (value * Sequence) -> Prop.
Hypothesis Q_set : forall k v m, Q m -> Q (JsMap.set k v m).
Hypothesis Q_delete : forall k m, Q m -> Q (JsMap.delete k m).

Local Abbreviation on_map := (fun st : State => Q (sequences st)).

Lemma on_map_isEnabled : keeps on_map isEnabled.
Proof. apply keeps_isEnabled. by intros n st. Qed.

Lemma on_map_getState topic : keeps on_map (getState topic).
Proof. apply keeps_getState. by intros n st. Qed.

Lemma on_map_emit e : keeps on_map (modify (emit e)).
Proof. apply keeps_modify. intros st HQ. by rewrite sequences_emit. Qed.

Lemma on_map_update topic u : keeps on_map (update topic u).
Proof.
  apply keeps_bind; [apply on_map_isEnabled |]. intros _.
  apply keeps_bind; [apply on_map_getState |]. intros current.
  apply keeps_bind; [| intros _; apply on_map_emit].
  apply keeps_modify. intros st HQ. simpl. by apply Q_set.
Qed.

Lemma on_map_set topic sequence : keeps on_map (set topic sequence).
Proof.
  apply keeps_bind; [apply on_map_isEnabled |]. intros _ st HQ.
  destruct (JsMap.has (VStr topic) (sequences st)); cbn [snd].
  - by apply on_map_update.
  - by rewrite sequences_emit.
Qed.

Lemma on_map_delete topic reason : keeps on_map (delete topic reason).
Proof.
  apply keeps_bind; [apply on_map_isEnabled |]. intros _ st HQ.
  destruct (negb (JsMap.has (VStr topic) (sequences st))); [done |].
  revert st HQ.
  apply (keeps_bind on_map); [apply on_map_getState |]. intros current.
  apply keeps_bind; [| intros _; apply on_map_emit].
  apply keeps_modify. intros st HQ. simpl. by apply Q_delete.
Qed.

Lemma on_map_forEach_set items : keeps on_map (forEach_set items).
Proof.
  induction items as [|[s|] items IH]; simpl.
  - apply keeps_ret.
  - apply keeps_bind; [| done]. apply keeps_modify. intros st HQ. simpl.
    by apply Q_set.
  - apply keeps_throw.
Qed.

Lemma on_map_init r : keeps on_map (init r).
Proof.
  assert (Htry : keeps on_map (restore_try r)).
  { apply keeps_bind; [by apply keeps_modify |]. intros _.
    destruct r as [reason | [| | items]];
      [apply keeps_throw | apply keeps_ret | apply keeps_throw |].
    destruct items as [|e items]; [apply keeps_ret |].
    intros st HQ. destruct (negb (Nat.eqb (JsMap.size (sequences st)) 0)); [done |].
    revert st HQ.
    apply (keeps_bind on_map); [by apply keeps_modify |]. intros _.
    apply keeps_bind; [apply on_map_forEach_set |]. intros _.
    apply keeps_bind; [by apply keeps_modify | intros _; apply on_map_emit]. }
  intros st HQ. unfold init, restore. specialize (Htry st HQ).
  by destruct (restore_try r st) as [[a|e|] st1].
Qed.

Lemma on_map_step (c : call) (st : State) :
  Q (sequences st) -> Q (sequences (step c st)).
Proof.
  destruct c; simpl.
  - apply on_map_init.
  - apply on_map_set.
  - apply (keeps_get on_map). by intros n st0.
  - apply on_map_update.
  - apply on_map_delete.
  - by rewrite sequences_settle.
Qed.

Lemma on_map_run (cs : list call) (st : State) :
  Q (sequences st) -> Q (sequences (run cs st)).
Proof.
  revert st. induction cs as [|c cs IH]; intros st HQ; simpl; [done |].
  apply IH. by apply on_map_step.
Qed.
End MapInduction.

(** X13. At most one sequence per topic: in a store whose [topics] are
    pairwise distinct they stay so along every run, whatever the calls and
    whatever the adapter answers; so they are in every store that was
    constructed.  With that, a [delete] that removes an entry makes [length]
    one less. *)
Theorem topics_stay_distinct
    (cs : list call) (st : State) (topic : string) (reason : Reason) :
  NoDup (topics st) ->
  NoDup (topics (run cs st)) /\
  (cached (run cs st) = [] ->
   JsMap.has (VStr topic) (sequences (run cs st)) = true ->
   S (length (snd (delete topic reason (run cs st)))) = length (run cs st)).
Proof.
  intros Hnd.
  assert (Hrun : NoDup (topics (run cs st))).
  { unfold topics. apply (on_map_run (fun m => NoDup (JsMap.keys m))); [| | done].
    - intros k v m. apply NoDup_keys_set.
    - intros k m. apply NoDup_keys_delete. }
  split; [exact Hrun |]. intros Hc Hh.
  pose proof Hh as Hg. apply has_get in Hg as [current Hg].
  rewrite (delete_present topic current reason _ Hc Hg). cbn [snd].
  unfold length. simpl. by apply size_delete_present.
Qed.

Lemma topics_stay_distinct_witness :
  NoDup (topics sample_store) /\
  NoDup (topics (run [CallInit (ReadResolves (PArray [Some seq_t1; Some seq_t1'; Some seq_t2]));
                      CallUpdate "t1" patch_w] sample_store)) /\
  length (snd (delete "t1" reason_done
                 (run [CallInit (ReadResolves (PArray [Some seq_t1; Some seq_t1'; Some seq_t2]));
                       CallUpdate "t1" patch_w] sample_store))) = 1.
Proof.
  assert (Hnd : NoDup (topics sample_store)) by apply NoDup_nil_2.
  split; [exact Hnd |].
  destruct (topics_stay_distinct
              [CallInit (ReadResolves (PArray [Some seq_t1; Some seq_t1'; Some seq_t2]));
               CallUpdate "t1" patch_w] sample_store "t1" reason_done Hnd)
    as (Hrun & Hdel).
  split; [exact Hrun |].
  exact (f_equal Nat.pred (Hdel eq_refl eq_refl)).
Defined.

(** ** Every write is settled once *)

Lemma length_without (A : Type) (l : list A) (i : nat) (x : A) :
  l !! i = Some x -> S (List.length (take i l ++ drop (S i) l)) = List.length l.
Proof.
  intros Hi. apply lookup_lt_Some in Hi.
  rewrite length_app, length_take, length_drop. lia.
Qed.

Lemma write_inv_record a st :
  is_setItem a = false -> is_settled a = false ->
  is_sync_event a = false -> is_resolved a = false ->
  write_inv st -> write_inv (record a st).
Proof.
  intros H1 H2 H3 H4 (Hw & Hs). unfold count_actions in Hw, Hs.
  split; simpl; unfold count_actions; rewrite !List.filter_app, !length_app; simpl;
    rewrite ?H1, ?H2, ?H3, ?H4; simpl; lia.
Qed.

Lemma write_inv_emit e st : e <> Sync -> write_inv st -> write_inv (emit e st).
Proof.
  intros He (Hw & Hs).
  destruct e; try done; split; simpl;
    rewrite ?length_app, !count_actions_app; unfold count_actions; simpl;
    unfold count_actions in Hw, Hs; rewrite ?List.filter_app, ?length_app; simpl; lia.
Qed.

Lemma write_inv_settle i ok st : write_inv st -> write_inv (settle i ok st).
Proof.
  intros (Hw & Hs). unfold settle.
  destruct (writes st !! i) as [[key item]|] eqn:Hi; [| done].
  pose proof (length_without _ _ _ _ Hi) as Hlen. rewrite length_app in Hlen.
  unfold count_actions in Hw, Hs.
  destruct ok; split; simpl; unfold count_actions;
    rewrite ?List.filter_app, ?length_app; simpl; lia.
Qed.

(** X14. Along every run of a store that was constructed, every write handed
    to the adapter is either outstanding or was settled exactly once, and
    [sync] was emitted exactly once for each write the adapter resolved
    (never for a rejected one). *)
Theorem writes_settled_once
    (generateChildLogger : string -> string -> string)
    (owner : IClient) (parent name : string) (calls : list call) :
  let st := run calls (new_State generateChildLogger owner parent name) in
  count_actions is_setItem (trace st) =
    count_actions is_settled (trace st) + List.length (writes st) /\
  count_actions is_sync_event (trace st) = count_actions is_resolved (trace st).
Proof.
  apply (run_keeps write_inv).
  - by intros m st.
  - by intros c st.
  - by intros n st.
  - intros st. by apply write_inv_record.
  - apply write_inv_emit.
  - apply write_inv_settle.
  - by split.
Qed.

(** ** The key and the context of a store *)

Lemma split_nonempty sep s : split sep s <> [].
Proof.
  destruct s as [|c s]; simpl; [done |].
  destruct (Ascii.eqb c sep); [done |]. by destruct (split sep s).
Qed.

Lemma split_append sep (x y : string) :
  split sep (x +:+ String sep y) = split sep x ++ split sep y.
Proof.
  induction x as [|c x IH].
  - change (split sep (String sep y) = [EmptyString] ++ split sep y).
    simpl. by rewrite Ascii.eqb_refl.
  - change (split sep (String c (x +:+ String sep y)) =
            split sep (String c x) ++ split sep y).
    simpl. destruct (Ascii.eqb c sep); rewrite IH; [done |].
    pose proof (split_nonempty sep x) as Hne.
    by destruct (split sep x).
Qed.

Lemma split_slash_free s : slash_free s = true -> split "/" s = [s].
Proof.
  induction s as [|c s IH]; simpl; [done |].
  intros Hs. apply andb_prop in Hs as [Hc Hs].
  apply negb_true_iff in Hc. rewrite Hc. by rewrite (IH Hs).
Qed.

Lemma last_two_app {A : Type} (l : list A) (a b : A) : last_n 2 (l ++ [a; b]) = [a; b].
Proof.
  unfold last_n. rewrite length_app. simpl.
  replace (List.length l + 2 - 2) with (List.length l) by lia.
  apply drop_app_length.
Qed.

(** X15. The nested context of a store whose logger context is [a/b] or
    [p/a/b], with [a] and [b] free of [/], is [[a; b]]: the storage key ends
    in [//a:b] and the context named in errors is [a b], whatever [p] is.  A logger
    context with no [/] at all is the one segment: the key ends in [//] and
    that context. *)
Theorem key_of_nested_contexts (st : State) :
  (forall a b : string,
     (logger st = a +:+ "/" +:+ b \/
      exists p : string, logger st = p +:+ "/" +:+ a +:+ "/" +:+ b) ->
     slash_free a = true -> slash_free b = true ->
     getNestedContext 2 st = [a; b] /\
     getStorageKey st =
       protocol (client st) +:+ "@" +:+ version (client st) +:+ ":" +:+
       context (client st) +:+ "//" +:+ a +:+ ":" +:+ b /\
     getStateContext st = a +:+ " " +:+ b) /\
  (slash_free (logger st) = true ->
   getNestedContext 2 st = [logger st] /\
   getStorageKey st =
     protocol (client st) +:+ "@" +:+ version (client st) +:+ ":" +:+
     context (client st) +:+ "//" +:+ logger st /\
   getStateContext st = logger st).
Proof.
  split.
  - intros a b Hlog Ha Hb.
    assert (Hnested : getNestedContext 2 st = [a; b]).
    { rewrite getNestedContext_last_two.
      destruct Hlog as [Hlog | [p Hlog]]; rewrite Hlog.
      - change (a +:+ "/" +:+ b) with (a +:+ String "/" b).
        rewrite split_append, (split_slash_free a Ha), (split_slash_free b Hb).
        reflexivity.
      - change (p +:+ "/" +:+ a +:+ "/" +:+ b)
          with (p +:+ String "/" (a +:+ String "/" b)).
        rewrite !split_append, (split_slash_free a Ha), (split_slash_free b Hb).
        apply last_two_app. }
    split; [exact Hnested |]. unfold getStorageKey, getStateContext.
    rewrite Hnested. split; [| reflexivity].
    change (join ":" [a; b]) with (a +:+ ":" +:+ b). by rewrite !append_assoc.
  - intros Hfree.
    assert (Hnested : getNestedContext 2 st = [logger st]).
    { rewrite getNestedContext_last_two, (split_slash_free _ Hfree). reflexivity. }
    split; [exact Hnested |]. unfold getStorageKey, getStateContext.
    rewrite Hnested. split; [| reflexivity].
    change (join ":" [logger st]) with (logger st). by rewrite !append_assoc.
Qed.

Lemma key_of_nested_contexts_witness :
  logger sample_store = "client" +:+ "/" +:+ "session" /\
  slash_free "client" = true /\ slash_free "session" = true /\
  getNestedContext 2 sample_store = ["client"; "session"] /\
  getStorageKey sample_store = "wc@2:client//client:session" /\
  getStateContext sample_store = "client session".
Proof.
  split; [reflexivity |]. split; [reflexivity |]. split; [reflexivity |].
  destruct (key_of_nested_contexts sample_store) as [Hkey _].
  apply (Hkey "client" "session"); [left; reflexivity | reflexivity | reflexivity].
Defined.

(** ** Who moves the gate *)

Lemma enabled_count_emit e st :
  e <> Enabled ->
  count_actions is_enabled_event (trace (emit e st)) =
    count_actions is_enabled_event (trace st).
Proof.
  intros He. destruct e; try done; simpl; unfold count_actions;
    rewrite !List.filter_app, !length_app; simpl; lia.
Qed.

Lemma enabled_count_settle i ok st :
  count_actions is_enabled_event (trace (settle i ok st)) =
    count_actions is_enabled_event (trace st).
Proof.
  rewrite settle_effect, count_actions_app.
  destruct (writes st !! i) as [[key item]|]; [destruct ok |];
    unfold count_actions at 2; simpl; lia.
Qed.

(** X16. Only [init] moves the gate: [set], [get], [update], [delete] and
    the settling of a write leave [cached] as it is and emit no [enabled],
    in every state of the store. *)
Theorem gate_moves_only_in_init (c : call) (st : State) :
  (forall r, c <> CallInit r) ->
  cached (step c st) = cached st /\
  count_actions is_enabled_event (trace (step c st)) =
    count_actions is_enabled_event (trace st).
Proof.
  intros Hc.
  destruct c as [r | topic s | topic | topic u | topic reason | i ok]; cbn [step].
  - by destruct (Hc r).
  - destruct (decide (cached st = [])) as [Hopen|Hclosed];
      [| by rewrite set_parked].
    unfold set, bind. rewrite (isEnabled_open st Hopen). unfold JsMap.has.
    destruct (JsMap.get (VStr topic) (sequences st)) as [current|] eqn:Hg; cbn [snd].
    + rewrite (update_present topic current s st Hopen Hg). cbn [snd].
      by rewrite cached_emit, enabled_count_emit.
    + by rewrite cached_emit, enabled_count_emit.
  - destruct (decide (cached st = [])) as [Hopen|Hclosed];
      [| by rewrite get_parked].
    destruct (JsMap.get (VStr topic) (sequences st)) as [current|] eqn:Hg.
    + unfold get, bind. rewrite (isEnabled_open st Hopen).
      by rewrite (getState_present topic current st Hopen Hg).
    + rewrite get_absent; [done | done | by apply has_false_get].
  - destruct (decide (cached st = [])) as [Hopen|Hclosed];
      [| by rewrite update_parked].
    destruct (JsMap.get (VStr topic) (sequences st)) as [current|] eqn:Hg.
    + rewrite (update_present topic current u st Hopen Hg). cbn [snd].
      by rewrite cached_emit, enabled_count_emit.
    + rewrite update_absent; [done | done | by apply has_false_get].
  - destruct (decide (cached st = [])) as [Hopen|Hclosed];
      [| by rewrite delete_parked].
    destruct (JsMap.get (VStr topic) (sequences st)) as [current|] eqn:Hg.
    + rewrite (delete_present topic current reason st Hopen Hg). cbn [snd].
      by rewrite cached_emit, enabled_count_emit.
    + rewrite delete_absent; [done | done | by apply has_false_get].
  - by rewrite cached_settle, enabled_count_settle.
Qed.

Lemma gate_moves_only_in_init_witness :
  cached (step (CallDelete "t1" reason_done) stalled_store) = cached stalled_store /\
  count_actions is_enabled_event (trace (step (CallUpdate "t1" patch_v2) restored_store)) = 1.
Proof.
  split.
  - apply (gate_moves_only_in_init (CallDelete "t1" reason_done) stalled_store).
    intros r. discriminate.
  - destruct (gate_moves_only_in_init (CallUpdate "t1" patch_v2) restored_store)
      as [_ Hen]; [intros r; discriminate |].
    rewrite Hen. reflexivity.
Defined.
